(** * Leafref path lexer and parser of pyang: a shallow embedding

    The development follows the two Python modules
    [pyang/leafref_path_lexer.py] and [pyang/leafref_path_parser.py].
    Python strings are [string]s, the lazy token generator [scan] is the
    list of the tokens it yields together with the exception, if any, that
    ends the iteration, and the values built by the grammar actions are
    Python objects ([pyobj]). *)

From Stdlib Require Import String List Arith Lia ZArith Ascii Bool.
From Equations Require Import Equations.
Import ListNotations.

Infix "+++" := String.append (right associativity, at level 60).

(** ** leafref_path_lexer.py *)

(** The token names of [patterns] and of [functions]. *)
Inductive toktype :=
| WSP | LEFT_PARENTHESIS | RIGHT_PARENTHESIS | LEFT_SQUARE_BRACKET
| RIGHT_SQUARE_BRACKET | DOTS | SLASH | EQUAL | COLON | IDENTIFIER
| CURRENT_KEYWORD | DEREF_KEYWORD.

Scheme Equality for toktype.

(** [LeafrefPathTok]: the named tuple (type, value, lineno, lexpos, lexer).
    The last field is a reference to the lexer object, which no code reads;
    it is left out. *)
Record LeafrefPathTok := mkTok {
  type : toktype;
  value : string;
  lineno : nat;
  lexpos : nat }.

(** The exceptions of the two modules, all of Python class [SyntaxError]:
    - [LexError line linepos] is [SyntaxError('syntax error', line, linepos)]
      of [scan];
    - [ParseError line column text] is the message
      ['[L{line}:C{column}]:, before {value!r}'] of [p_error];
    - [UnexpectedEnd] is ['unexpected end of expression'] of [p_error].
    [InternalError] stands for any other exception ([TypeError],
    [IndexError], [KeyError]) that a grammar action or the parsing engine
    would raise on ill-formed values. *)
Inductive exn :=
| LexError (line linepos : nat)
| ParseError (line column : nat) (text : string)
| UnexpectedEnd
| InternalError.

Definition in_range (lo hi c : ascii) : bool :=
  (nat_of_ascii lo <=? nat_of_ascii c) && (nat_of_ascii c <=? nat_of_ascii hi).

(** The character classes of the regular expressions: [[ \t]],
    [[a-zA-Z_]] and [[a-zA-Z0-9_\-.]]. *)
Definition is_wsp (c : ascii) : bool :=
  Ascii.eqb c " " || Ascii.eqb c "009".

Definition is_ident_start (c : ascii) : bool :=
  in_range "a" "z" c || in_range "A" "Z" c || Ascii.eqb c "_".

Definition is_ident_char (c : ascii) : bool :=
  in_range "a" "z" c || in_range "A" "Z" c || in_range "0" "9" c
  || Ascii.eqb c "_" || Ascii.eqb c "-" || Ascii.eqb c ".".

(** Longest prefix of characters of a class, and what follows it. *)
Fixpoint span (cls : ascii -> bool) (s : string) : string * string :=
  match s with
  | EmptyString => (EmptyString, EmptyString)
  | String c s' =>
      if cls c then let (v, r) := span cls s' in (String c v, r)
      else (EmptyString, s)
  end.

Fixpoint strip_prefix (p s : string) : option string :=
  match p, s with
  | EmptyString, _ => Some s
  | String a p', String b s' =>
      if Ascii.eqb a b then strip_prefix p' s' else None
  | String _ _, EmptyString => None
  end.

(** The three shapes of regular expression that [patterns] uses: a literal
    text, [[cls]+], and [[first][rest]*]. *)
Inductive regex :=
| Lit (text : string)
| Plus (cls : ascii -> bool)
| ThenStar (first rest : ascii -> bool).

(** [pattern.match(source, pos)] on the suffix [s = source[pos:]]: the
    matched text [match.group(0)] and the rest of the source, or [None].
    The quantifiers are greedy and nothing follows them, so the match is the
    longest run. *)
Definition re_match (r : regex) (s : string) : option (string * string) :=
  match r with
  | Lit text =>
      match strip_prefix text s with
      | Some rest => Some (text, rest)
      | None => None
      end
  | Plus cls =>
      match span cls s with
      | (EmptyString, _) => None
      | (v, rest) => Some (v, rest)
      end
  | ThenStar first more =>
      match s with
      | String c s' =>
          if first c
          then let (v, rest) := span more s' in Some (String c v, rest)
          else None
      | EmptyString => None
      end
  end.

Definition patterns : list (toktype * regex) :=
  [ (WSP, Plus is_wsp);
    (LEFT_PARENTHESIS, Lit "(");
    (RIGHT_PARENTHESIS, Lit ")");
    (LEFT_SQUARE_BRACKET, Lit "[");
    (RIGHT_SQUARE_BRACKET, Lit "]");
    (DOTS, Lit "..");
    (SLASH, Lit "/");
    (EQUAL, Lit "=");
    (COLON, Lit ":");
    (IDENTIFIER, ThenStar is_ident_start is_ident_char) ].

Definition functions : list (string * toktype) :=
  [ ("current"%string, CURRENT_KEYWORD); ("deref"%string, DEREF_KEYWORD) ].

(** [d.get(k, default)] on a dictionary with string keys. *)
Fixpoint dict_get {A} (d : list (string * A)) (k : string) (default : A) : A :=
  match d with
  | [] => default
  | (k', v) :: d' => if String.eqb k' k then v else dict_get d' k default
  end.

Definition token_defs : list toktype :=
  map fst patterns ++ map snd functions.

(** The [for tokname, pattern in patterns] loop of [scan]: the first pattern
    that matches, with the matched text and the rest; [None] is the [else]
    branch of the loop. *)
Fixpoint first_match (ps : list (toktype * regex)) (s : string)
  : option (toktype * string * string) :=
  match ps with
  | [] => None
  | (tokname, pattern) :: ps' =>
      match re_match pattern s with
      | Some (v, rest) => Some (tokname, v, rest)
      | None => first_match ps' s
      end
  end.

Definition match_at (source : string) := first_match patterns source.

(** Every pattern consumes at least one character; this is what makes the
    [while pos < len(source)] loop of [scan] advance. *)
Definition consumes (r : regex) : bool :=
  match r with Lit EmptyString => false | _ => true end.

Lemma length_append s t :
  String.length (s +++ t) = String.length s + String.length t.
Proof. induction s; simpl; auto. Qed.

Lemma span_append cls s v r : span cls s = (v, r) -> s = v +++ r.
Proof.
  revert v r; induction s as [|c s IH]; simpl; intros v r.
  - intros [= <- <-]; reflexivity.
  - destruct (cls c).
    + destruct (span cls s) as [v' r'] eqn:E. intros [= <- <-].
      simpl. f_equal. apply IH. reflexivity.
    + intros [= <- <-]; reflexivity.
Qed.

Lemma strip_prefix_append p s r : strip_prefix p s = Some r -> s = p +++ r.
Proof.
  revert s; induction p as [|a p IH]; intros [|b s]; simpl; try congruence.
  destruct (Ascii.eqb_spec a b); [|discriminate].
  intros H; rewrite (IH _ H); subst; reflexivity.
Qed.

Lemma re_match_append r s v rest :
  re_match r s = Some (v, rest) -> s = v +++ rest.
Proof.
  destruct r as [text|cls|first more]; simpl.
  - destruct (strip_prefix text s) eqn:E; [|discriminate].
    intros [= <- <-]. apply strip_prefix_append; assumption.
  - destruct (span cls s) as [v' r'] eqn:E.
    destruct v'; [discriminate|]. intros [= <- <-].
    apply span_append in E; assumption.
  - destruct s as [|c s]; [discriminate|]. destruct (first c); [|discriminate].
    destruct (span more s) as [v' r'] eqn:E. intros [= <- <-].
    apply span_append in E. simpl. congruence.
Qed.

Lemma re_match_nonempty r s v rest :
  consumes r = true -> re_match r s = Some (v, rest) -> v <> EmptyString.
Proof.
  destruct r as [text|cls|first more]; simpl.
  - destruct text; [discriminate|]. intros _.
    destruct (strip_prefix _ s); [|discriminate]. intros [= <- <-]; discriminate.
  - intros _. destruct (span cls s) as [v' r'].
    destruct v'; [discriminate|]. intros [= <- <-]; discriminate.
  - intros _. destruct s as [|c s]; [discriminate|].
    destruct (first c); [|discriminate].
    destruct (span more s). intros [= <- <-]; discriminate.
Qed.

Lemma first_match_In ps s tokname v rest :
  first_match ps s = Some (tokname, v, rest) ->
  exists r, In (tokname, r) ps /\ re_match r s = Some (v, rest).
Proof.
  induction ps as [|[k r] ps IH]; simpl; [discriminate|].
  destruct (re_match r s) as [[v' rest']|] eqn:E.
  - intros [= <- <- <-]. exists r; auto.
  - intros H. destruct (IH H) as [r' [? ?]]. exists r'; auto.
Qed.

Lemma patterns_consume : forallb (fun p => consumes (snd p)) patterns = true.
Proof. reflexivity. Qed.

Lemma match_at_spec s tokname v rest :
  match_at s = Some (tokname, v, rest) ->
  s = v +++ rest /\ v <> EmptyString.
Proof.
  intros H. apply first_match_In in H. destruct H as [r [Hin Hm]]. split.
  - eapply re_match_append; eassumption.
  - eapply re_match_nonempty; [|eassumption].
    pose proof patterns_consume as P. rewrite forallb_forall in P.
    apply (P _ Hin).
Qed.

Lemma match_at_shorter s tokname v rest :
  match_at s = Some (tokname, v, rest) ->
  String.length rest < String.length s.
Proof.
  intros H. apply match_at_spec in H. destruct H as [-> Hv].
  rewrite length_append. destruct v; [congruence|simpl; lia].
Qed.

Definition inspect {A} (a : A) : {b : A | a = b} := exist _ a eq_refl.

#[local] Obligation Tactic := idtac.

Opaque match_at.

(** The body of [scan] from the position [pos], where [source] below is the
    suffix [source[pos:]] still to be read and [linepos = pos + 1].  The
    result lists the tokens that the generator yields, in order, and the
    exception that ends the iteration ([None]: the generator is exhausted
    normally). *)
Equations scan_from (source : string) (linepos : nat)
  : list LeafrefPathTok * option exn by wf (String.length source) lt :=
scan_from EmptyString _ := ([], None);
scan_from source linepos with inspect (match_at source) := {
  | exist _ (Some (tokname, v, rest)) _ =>
      let tokname := match tokname with
                     | IDENTIFIER => dict_get functions v tokname
                     | _ => tokname
                     end in
      let '(toks, err) := scan_from rest (linepos + String.length v) in
      (mkTok tokname v 1 linepos :: toks, err)
  | exist _ None _ => ([], Some (LexError 1 linepos)) }.
Next Obligation. intros; eapply match_at_shorter; eassumption. Qed.

Transparent match_at.

Definition scan (source : string) : list LeafrefPathTok * option exn :=
  scan_from source 1.

(** [LeafrefPathLexer]: its one attribute [tokens] holds the generator made
    by [scan], or [None].  A generator is represented by what it still has
    to yield. *)
Record LeafrefPathLexer := mkLexer {
  tokens : option (list LeafrefPathTok * option exn) }.

Definition LeafrefPathLexer_new : LeafrefPathLexer := mkLexer None.

Definition input (self : LeafrefPathLexer) (source : string) : LeafrefPathLexer :=
  mkLexer (Some (scan source)).

(** What a call returns: a value, or an exception. *)
Inductive outcome (A : Type) :=
| Returns (a : A)
| Raises (e : exn).
Arguments Returns {A} a.
Arguments Raises {A} e.

(** [token]: the next token of the generator; on [StopIteration] the
    attribute is reset and [None] returned; a [SyntaxError] resets the
    attribute and is raised again. *)
Definition token (self : LeafrefPathLexer)
  : outcome (option LeafrefPathTok) * LeafrefPathLexer :=
  match tokens self with
  | Some (t :: rest, err) => (Returns (Some t), mkLexer (Some (rest, err)))
  | Some ([], None) => (Returns None, mkLexer None)
  | Some ([], Some e) => (Raises e, mkLexer None)
  | None => (Returns None, self)
  end.

(** ** leafref_path_parser.py: values and grammar actions *)

(** The Python objects that the grammar actions build: [None], integers,
    strings, tuples, lists and the two named tuples of the module. *)
Inductive pyobj :=
| PyNone
| PyInt (n : Z)
| PyStr (s : string)
| PyTuple (items : list pyobj)
| PyList (items : list pyobj)
| LeafrefPathArg (up dn derefup derefdn : pyobj)
| LeafrefPathPredicate (literal node_id up dn : pyobj).

(** The items of a tuple; a named tuple is a tuple.  [None] when the object
    is no tuple: [isinstance(x, tuple)] is [as_tuple x <> None]. *)
Definition as_tuple (x : pyobj) : option (list pyobj) :=
  match x with
  | PyTuple items => Some items
  | LeafrefPathArg a b c d => Some [a; b; c; d]
  | LeafrefPathPredicate a b c d => Some [a; b; c; d]
  | _ => None
  end.

Definition isinstance_tuple (x : pyobj) : bool :=
  match as_tuple x with Some _ => true | None => false end.

Definition isinstance_list (x : pyobj) : bool :=
  match x with PyList _ => true | _ => false end.

(** Iteration over an object, as [*args] and [list.extend] do; [None] is a
    [TypeError]. *)
Definition py_iter (x : pyobj) : option (list pyobj) :=
  match x with
  | PyList items => Some items
  | PyStr s => Some (map (fun c => PyStr (String c EmptyString)) (list_ascii_of_string s))
  | PyNone | PyInt _ => None
  | _ => as_tuple x
  end.

(** [len(x)]. *)
Definition py_len (x : pyobj) : option nat :=
  match py_iter x with Some items => Some (length items) | None => None end.

(** [x + y]. *)
Definition py_add (x y : pyobj) : option pyobj :=
  match x, y with
  | PyInt a, PyInt b => Some (PyInt (a + b))
  | PyStr a, PyStr b => Some (PyStr (a +++ b))
  | PyList a, PyList b => Some (PyList (a ++ b))
  | PyNone, _ | PyInt _, _ | PyStr _, _ | PyList _, _ => None
  | _, _ =>
      match as_tuple x, as_tuple y with
      | Some a, Some b => Some (PyTuple (a ++ b))
      | _, _ => None
      end
  end.

(** [l.extend(x)], [l.append(x)] and [l.insert(0, x)]: the list after the
    call.  The actions update the accumulator of a repetition in place and
    pass it on; each accumulator is referred to by one stack entry only, so
    the list after the update is all that is observed. *)
Definition list_extend (l x : pyobj) : option pyobj :=
  match l, py_iter x with
  | PyList items, Some more => Some (PyList (items ++ more))
  | _, _ => None
  end.

Definition list_append (l x : pyobj) : option pyobj :=
  match l with
  | PyList items => Some (PyList (items ++ [x]))
  | _ => None
  end.

Definition list_insert0 (l x : pyobj) : option pyobj :=
  match l with
  | PyList items => Some (PyList (x :: items))
  | _ => None
  end.

Definition bind {A B} (o : option A) (f : A -> option B) : option B :=
  match o with Some a => f a | None => None end.

Notation "x <- e ;; k" := (bind e (fun x => k))
  (at level 61, e at next level, right associativity).

(** The grammar actions.  The argument [p] lists [p[1]], ..., [p[n]], the
    values of the right-hand side, so that [len(p) == n + 1]; the result is
    the value assigned to [p[0]], or [None] where Python raises. *)

Definition p_path_arg (p : list pyobj) : option pyobj :=
  match p with
  | p1 :: _ =>
      n <- py_len p1 ;;
      args <- (if n =? 2 then py_add p1 (PyTuple [PyInt 0; PyNone]) else Some p1) ;;
      items <- py_iter args ;;
      match items with
      | [up; dn; derefup; derefdn] => Some (LeafrefPathArg up dn derefup derefdn)
      | _ => None
      end
  | [] => None
  end.

Definition p_deref_expr (p : list pyobj) : option pyobj :=
  match p with
  | p1 :: _ :: p3 :: _ => py_add p3 p1
  | _ => None
  end.

Definition p_path_str (p : list pyobj) : option pyobj :=
  match p with
  | p1 :: _ =>
      if isinstance_tuple p1 then Some p1
      else Some (PyTuple [PyInt (-1); p1])
  | [] => None
  end.

Definition p_absolute_path (p : list pyobj) : option pyobj :=
  match p with
  | p1 :: p2 :: _ => list_extend p1 p2
  | _ => None
  end.

Definition p_relative_path (p : list pyobj) : option pyobj :=
  match p with
  | p1 :: p2 :: _ => Some (PyTuple [p1; p2])
  | _ => None
  end.

Definition p_descendant_path (p : list pyobj) : option pyobj :=
  match p with
  | [p1; p2; p3] =>
      l <- list_extend (PyList [p1]) p2 ;;
      list_extend l p3
  | p1 :: _ => Some (PyList [p1])
  | [] => None
  end.

Definition p_path_predicate (p : list pyobj) : option pyobj :=
  match p with
  | _ :: p2 :: _ => Some p2
  | _ => None
  end.

Definition p_path_equality_expr (p : list pyobj) : option pyobj :=
  match p with
  | p1 :: _ :: p3 :: _ =>
      items <- py_iter p3 ;;
      match items with
      | [up; dn] => Some (LeafrefPathPredicate (PyStr "predicate") p1 up dn)
      | _ => None
      end
  | _ => None
  end.

Definition p_path_key_expr (p : list pyobj) : option pyobj :=
  match p with
  | _ :: _ :: p3 :: _ => Some p3
  | _ => None
  end.

Definition p_rel_path_keyexpr (p : list pyobj) : option pyobj :=
  match p with
  | p1 :: p2 :: p3 :: _ =>
      l <- list_append p2 p3 ;;
      Some (PyTuple [p1; l])
  | _ => None
  end.

Definition p_current_function_invocation (p : list pyobj) : option pyobj :=
  Some (PyStr "current()").

Definition p_deref_function_invocation (p : list pyobj) : option pyobj :=
  match p with
  | _ :: _ :: p3 :: _ => Some p3
  | _ => None
  end.

Definition p_node_identifier (p : list pyobj) : option pyobj :=
  match p with
  | [p1; _; p3] => Some (PyTuple [p1; p3])
  | p1 :: _ => Some p1
  | [] => None
  end.

Definition p_identifier (p : list pyobj) : option pyobj :=
  match p with
  | p1 :: _ => Some p1
  | [] => None
  end.

Definition p_dots_slash_seq (p : list pyobj) : option pyobj :=
  match p with
  | [] => Some (PyInt 0)
  | p1 :: _ => py_add p1 (PyInt 1)
  end.

Definition p_absolute_path_segment (p : list pyobj) : option pyobj :=
  match p with
  | _ :: p2 :: p3 :: _ => list_insert0 p3 p2
  | _ => None
  end.

Definition p_zero_or_more_lists (p : list pyobj) : option pyobj :=
  match p with
  | [] => Some (PyList [])
  | p1 :: p2 :: _ =>
      if isinstance_list p2 then list_extend p1 p2 else list_append p1 p2
  | [_] => None
  end.

Definition p_wsp_slash_wsp (p : list pyobj) : option pyobj := Some (PyStr "/").
Definition p_wsp_equal_wsp (p : list pyobj) : option pyobj := Some (PyStr "=").
Definition p_left_square_bracket_wsp (p : list pyobj) : option pyobj := Some (PyStr "[").
Definition p_wsp_right_square_bracket (p : list pyobj) : option pyobj := Some (PyStr "]").
Definition p_wsp_left_parenthesis_wsp (p : list pyobj) : option pyobj := Some (PyStr "(").
Definition p_wsp_right_parenthesis (p : list pyobj) : option pyobj := Some (PyStr ")").

(** [p_error]: the exception raised for the offending token, [None] at the
    end of the input. *)
Definition p_error (token : option LeafrefPathTok) : exn :=
  match token with
  | Some t => ParseError (lineno t) (lexpos t) (value t)
  | None => UnexpectedEnd
  end.

(** ** The grammar *)

(** The non-terminals of the docstrings; [S'] is the start symbol that the
    parser generator adds above [path_arg]. *)
Inductive nonterminal :=
| S' | path_arg | deref_expr | path_str | absolute_path | relative_path
| descendant_path | path_predicate | path_equality_expr | path_key_expr
| rel_path_keyexpr | current_function_invocation | deref_function_invocation
| node_identifier | identifier | prefix | dots_slash_seq
| dots_wsp_slash_wsp_seq | absolute_path_segment | path_predicate_list
| node_identifier_wsp_slash_wsp_list | absolute_path_segment_list
| wsp_slash_wsp | wsp_equal_wsp | left_square_bracket_wsp
| wsp_right_square_bracket | wsp_left_parenthesis_wsp | wsp_right_parenthesis.

Scheme Equality for nonterminal.

Inductive symbol := T (t : toktype) | N (n : nonterminal).

Definition symbol_eqb (a b : symbol) : bool :=
  match a, b with
  | T x, T y => toktype_beq x y
  | N x, N y => nonterminal_beq x y
  | _, _ => false
  end.

(** A production: its left-hand side, its right-hand side and the Python
    function whose docstring declares it. *)
Record production := mkProd {
  name : nonterminal;
  prod : list symbol;
  callable : list pyobj -> option pyobj }.

(** The productions of the [p_*] functions, in the order of the file. *)
Definition grammar : list production :=
  [
    mkProd path_arg [N deref_expr] p_path_arg;
    mkProd path_arg [N path_str] p_path_arg;
    mkProd deref_expr [N deref_function_invocation; N wsp_slash_wsp; N relative_path] p_deref_expr;
    mkProd path_str [N absolute_path] p_path_str;
    mkProd path_str [N relative_path] p_path_str;
    mkProd absolute_path [N absolute_path_segment; N absolute_path_segment_list] p_absolute_path;
    mkProd relative_path [N dots_slash_seq; N descendant_path] p_relative_path;
    mkProd descendant_path [N node_identifier] p_descendant_path;
    mkProd descendant_path [N node_identifier; N path_predicate_list; N absolute_path] p_descendant_path;
    mkProd path_predicate [N left_square_bracket_wsp; N path_equality_expr; N wsp_right_square_bracket] p_path_predicate;
    mkProd path_equality_expr [N node_identifier; N wsp_equal_wsp; N path_key_expr] p_path_equality_expr;
    mkProd path_key_expr [N current_function_invocation; N wsp_slash_wsp; N rel_path_keyexpr] p_path_key_expr;
    mkProd rel_path_keyexpr [N dots_wsp_slash_wsp_seq; N node_identifier_wsp_slash_wsp_list; N node_identifier] p_rel_path_keyexpr;
    mkProd current_function_invocation [T CURRENT_KEYWORD; N wsp_left_parenthesis_wsp; T RIGHT_PARENTHESIS] p_current_function_invocation;
    mkProd deref_function_invocation [T DEREF_KEYWORD; N wsp_left_parenthesis_wsp; N relative_path; N wsp_right_parenthesis] p_deref_function_invocation;
    mkProd node_identifier [N prefix; T COLON; N identifier] p_node_identifier;
    mkProd node_identifier [N identifier] p_node_identifier;
    mkProd identifier [T IDENTIFIER] p_identifier;
    mkProd identifier [T CURRENT_KEYWORD] p_identifier;
    mkProd identifier [T DEREF_KEYWORD] p_identifier;
    mkProd prefix [N identifier] p_identifier;
    mkProd dots_slash_seq [N dots_slash_seq; T DOTS; T SLASH] p_dots_slash_seq;
    mkProd dots_slash_seq [] p_dots_slash_seq;
    mkProd dots_wsp_slash_wsp_seq [N dots_wsp_slash_wsp_seq; T DOTS; N wsp_slash_wsp] p_dots_slash_seq;
    mkProd dots_wsp_slash_wsp_seq [] p_dots_slash_seq;
    mkProd absolute_path_segment [T SLASH; N node_identifier; N path_predicate_list] p_absolute_path_segment;
    mkProd path_predicate_list [N path_predicate_list; N path_predicate] p_zero_or_more_lists;
    mkProd path_predicate_list [] p_zero_or_more_lists;
    mkProd node_identifier_wsp_slash_wsp_list [N node_identifier_wsp_slash_wsp_list; N node_identifier; N wsp_slash_wsp] p_zero_or_more_lists;
    mkProd node_identifier_wsp_slash_wsp_list [] p_zero_or_more_lists;
    mkProd absolute_path_segment_list [N absolute_path_segment_list; N absolute_path_segment] p_zero_or_more_lists;
    mkProd absolute_path_segment_list [] p_zero_or_more_lists;
    mkProd wsp_slash_wsp [T SLASH] p_wsp_slash_wsp;
    mkProd wsp_slash_wsp [T WSP; T SLASH] p_wsp_slash_wsp;
    mkProd wsp_slash_wsp [T SLASH; T WSP] p_wsp_slash_wsp;
    mkProd wsp_slash_wsp [T WSP; T SLASH; T WSP] p_wsp_slash_wsp;
    mkProd wsp_equal_wsp [T EQUAL] p_wsp_equal_wsp;
    mkProd wsp_equal_wsp [T WSP; T EQUAL] p_wsp_equal_wsp;
    mkProd wsp_equal_wsp [T EQUAL; T WSP] p_wsp_equal_wsp;
    mkProd wsp_equal_wsp [T WSP; T EQUAL; T WSP] p_wsp_equal_wsp;
    mkProd left_square_bracket_wsp [T LEFT_SQUARE_BRACKET] p_left_square_bracket_wsp;
    mkProd left_square_bracket_wsp [T LEFT_SQUARE_BRACKET; T WSP] p_left_square_bracket_wsp;
    mkProd wsp_right_square_bracket [T RIGHT_SQUARE_BRACKET] p_wsp_right_square_bracket;
    mkProd wsp_right_square_bracket [T WSP; T RIGHT_SQUARE_BRACKET] p_wsp_right_square_bracket;
    mkProd wsp_left_parenthesis_wsp [T LEFT_PARENTHESIS] p_wsp_left_parenthesis_wsp;
    mkProd wsp_left_parenthesis_wsp [T WSP; T LEFT_PARENTHESIS] p_wsp_left_parenthesis_wsp;
    mkProd wsp_left_parenthesis_wsp [T LEFT_PARENTHESIS; T WSP] p_wsp_left_parenthesis_wsp;
    mkProd wsp_left_parenthesis_wsp [T WSP; T LEFT_PARENTHESIS; T WSP] p_wsp_left_parenthesis_wsp;
    mkProd wsp_right_parenthesis [T RIGHT_PARENTHESIS] p_wsp_right_parenthesis;
    mkProd wsp_right_parenthesis [T WSP; T RIGHT_PARENTHESIS] p_wsp_right_parenthesis ].

(** ** The parser generator and the parsing engine ([yacc]) *)

(** Modelled from the spec: the module [yacc] that [leafref_path_parser]
    imports ([from . import yacc], the PLY parser generator shipped with the
    package) is not among the sources.  The spec asks for a context-free
    grammar resolved in "a single bottom-up pass with one token of lookahead
    (LALR-class)", with a syntax error "at the first token that could not be
    shifted or reduced".  [lalr] below builds the LALR(1) tables of a list
    of productions (the LR(0) item sets, the look-ahead sets by propagation
    to a fixed point, the action rows); where a shift and a reduction compete
    the shift is kept, and of two reductions the production declared first,
    as yacc does for a grammar without precedence declarations.  [step] and
    [run] are the shift-reduce loop over these tables. *)

Inductive act := Shift (s : nat) | Reduce (p : nat) | Accept.

(** A look-ahead symbol: the type of a token, or [None] for the end of the
    input ([$end]). *)
Definition lookahead := option toktype.

Definition lookahead_eqb (a b : lookahead) : bool :=
  match a, b with
  | Some x, Some y => toktype_beq x y
  | None, None => true
  | _, _ => false
  end.

Definition act_eqb (a b : act) : bool :=
  match a, b with
  | Shift s, Shift s' => s =? s'
  | Reduce p, Reduce p' => p =? p'
  | Accept, Accept => true
  | _, _ => false
  end.

(** An LR(0) item: the number of a production and the position of the dot. *)
Definition item := (nat * nat)%type.

Definition item_eqb (a b : item) : bool :=
  (fst a =? fst b) && (snd a =? snd b).

(** [(s, X, s')]: in state [s], the symbol [X] leads to state [s']. *)
Definition transition := (nat * symbol * nat)%type.

Definition la_map := list (item * list lookahead).

(** Finite sets as lists without repetition, in order of insertion. *)
Section Sets.

Context {A : Type} (eqb : A -> A -> bool).

Definition mem (x : A) (l : list A) : bool := existsb (eqb x) l.

Definition add (x : A) (l : list A) : list A :=
  if mem x l then l else l ++ [x].

Definition union (l m : list A) : list A :=
  fold_left (fun acc x => add x acc) m l.

Definition subset (l m : list A) : bool := forallb (fun x => mem x m) l.

Definition same (l m : list A) : bool := subset l m && subset m l.

End Sets.

Fixpoint iterate {A} (n : nat) (f : A -> A) (x : A) : A :=
  match n with 0 => x | S n' => iterate n' f (f x) end.

Fixpoint update_nth {A} (n : nat) (f : A -> A) (l : list A) : list A :=
  match l, n with
  | [], _ => []
  | x :: l', 0 => f x :: l'
  | x :: l', S n' => x :: update_nth n' f l'
  end.

Definition move (trs : list transition) (s : nat) (X : symbol) : option nat :=
  match find (fun '(s', Y, _) => (s' =? s) && symbol_eqb Y X) trs with
  | Some (_, _, j) => Some j
  | None => None
  end.

Record tables := mkTables {
  states : list (list item);
  transitions : list transition;
  lookaheads : list la_map;
  rows : list (list (lookahead * act));
  conflicts : list (nat * lookahead) }.

Section Generator.

Variable prods : list production.

Definition rhs_of (p : nat) : list symbol :=
  match nth_error prods p with Some pr => prod pr | None => [] end.

(** *** Nullable non-terminals and FIRST sets *)

Definition nullable_in (nl : list nonterminal) (X : symbol) : bool :=
  match X with T _ => false | N n => mem nonterminal_beq n nl end.

Definition nullable_pass (nl : list nonterminal) : list nonterminal :=
  fold_left (fun acc pr => if forallb (nullable_in acc) (prod pr)
                           then add nonterminal_beq (name pr) acc else acc)
            prods nl.

Definition nullables : list nonterminal :=
  iterate (length prods) nullable_pass [].

Definition first_table := list (nonterminal * list toktype).

Definition first_of (tab : first_table) (n : nonterminal) : list toktype :=
  match find (fun e => nonterminal_beq (fst e) n) tab with
  | Some e => snd e
  | None => []
  end.

(** FIRST of a sequence of symbols, and whether the whole sequence can
    derive the empty word. *)
Fixpoint first_seq (nl : list nonterminal) (tab : first_table) (r : list symbol)
  : list toktype * bool :=
  match r with
  | [] => ([], true)
  | T t :: _ => ([t], false)
  | N n :: r' =>
      if mem nonterminal_beq n nl
      then let (f, e) := first_seq nl tab r' in
           (union toktype_beq (first_of tab n) f, e)
      else (first_of tab n, false)
  end.

Fixpoint set_first (tab : first_table) (n : nonterminal) (f : list toktype)
  : first_table :=
  match tab with
  | [] => [(n, f)]
  | (m, g) :: tab' =>
      if nonterminal_beq m n then (m, f) :: tab'
      else (m, g) :: set_first tab' n f
  end.

Definition first_pass (nl : list nonterminal) (tab : first_table) : first_table :=
  fold_left (fun acc pr =>
     set_first acc (name pr)
       (union toktype_beq (first_of acc (name pr))
                          (fst (first_seq nl acc (prod pr)))))
    prods tab.

Definition firsts (nl : list nonterminal) : first_table :=
  iterate (length prods) (first_pass nl) [].

(** *** The LR(0) automaton *)

Definition after_dot (it : item) : option symbol :=
  nth_error (rhs_of (fst it)) (snd it).

Fixpoint rules_of_from (n : nonterminal) (i : nat) (l : list production)
  : list nat :=
  match l with
  | [] => []
  | pr :: l' =>
      if nonterminal_beq (name pr) n then i :: rules_of_from n (S i) l'
      else rules_of_from n (S i) l'
  end.

Definition rules_of (n : nonterminal) : list nat := rules_of_from n 0 prods.

Fixpoint closure0_loop (fuel : nat) (work done : list item) : list item :=
  match fuel with
  | 0 => done
  | S fuel' =>
      match work with
      | [] => done
      | it :: work' =>
          if mem item_eqb it done then closure0_loop fuel' work' done
          else
            let new := match after_dot it with
                       | Some (N n) => map (fun p => (p, 0)) (rules_of n)
                       | _ => []
                       end in
            closure0_loop fuel' (work' ++ new) (done ++ [it])
      end
  end.

Definition closure0 (kernel : list item) : list item :=
  closure0_loop ((length prods + length kernel + 1) * (length prods + 1))
                kernel [].

Definition goto0 (kernel : list item) (X : symbol) : list item :=
  flat_map (fun it => match after_dot it with
                      | Some Y => if symbol_eqb X Y then [(fst it, S (snd it))]
                                  else []
                      | None => []
                      end) (closure0 kernel).

Fixpoint index_of (k : list item) (sts : list (list item)) (i : nat)
  : option nat :=
  match sts with
  | [] => None
  | k' :: sts' => if same item_eqb k k' then Some i else index_of k sts' (S i)
  end.

Definition symbols_after (items : list item) : list symbol :=
  fold_left (fun acc it => match after_dot it with
                           | Some X => add symbol_eqb X acc
                           | None => acc
                           end) items [].

Fixpoint lr0_loop (fuel : nat) (sts : list (list item)) (trs : list transition)
    (i : nat) : list (list item) * list transition :=
  match fuel with
  | 0 => (sts, trs)
  | S fuel' =>
      match nth_error sts i with
      | None => (sts, trs)
      | Some k =>
          let '(sts', trs') :=
            fold_left (fun '(ss, ts) X =>
                let g := goto0 k X in
                match index_of g ss 0 with
                | Some j => (ss, ts ++ [(i, X, j)])
                | None => (ss ++ [g], ts ++ [(i, X, length ss)])
                end) (symbols_after (closure0 k)) (sts, trs) in
          lr0_loop fuel' sts' trs' (S i)
      end
  end.

(** The states are the kernels, numbered in order of discovery from the
    item [S' -> . path_arg]. *)
Definition lr0_items (fuel : nat) : list (list item) * list transition :=
  lr0_loop fuel [[(0, 0)]] [] 0.

(** *** LALR(1) look-ahead sets *)

Fixpoint la_add (m : la_map) (it : item) (ls : list lookahead) : la_map * bool :=
  match m with
  | [] => ([(it, ls)], true)
  | (it', ls') :: m' =>
      if item_eqb it it'
      then if subset lookahead_eqb ls ls' then (m, false)
           else ((it', union lookahead_eqb ls' ls) :: m', true)
      else let (m'', c) := la_add m' it ls in ((it', ls') :: m'', c)
  end.

Definition la_of (m : la_map) (it : item) : list lookahead :=
  match find (fun e => item_eqb (fst e) it) m with
  | Some e => snd e
  | None => []
  end.

Definition first_after (nl : list nonterminal) (tab : first_table)
    (beta : list symbol) (ls : list lookahead) : list lookahead :=
  let (f, e) := first_seq nl tab beta in
  if e then union lookahead_eqb (map Some f) ls else map Some f.

(** One round of the LR(1) closure: an item [A -> alpha . B beta] with
    look-aheads [ls] gives every item [B -> . gamma] the look-aheads
    FIRST([beta] [ls]). *)
Definition closure1_pass (nl : list nonterminal) (tab : first_table) (m : la_map)
  : la_map * bool :=
  fold_left (fun '(acc, c) e =>
      let it := fst e in
      match after_dot it with
      | Some (N n) =>
          let ls := first_after nl tab (skipn (S (snd it)) (rhs_of (fst it)))
                                (la_of acc it) in
          fold_left (fun '(acc', c') p =>
              let (acc'', c'') := la_add acc' (p, 0) ls in (acc'', c' || c''))
            (rules_of n) (acc, c)
      | _ => (acc, c)
      end) m (m, false).

Fixpoint closure1_loop (fuel : nat) nl tab (m : la_map) : la_map :=
  match fuel with
  | 0 => m
  | S fuel' =>
      let (m', c) := closure1_pass nl tab m in
      if c then closure1_loop fuel' nl tab m' else m'
  end.

Definition closure1 nl tab (m : la_map) : la_map :=
  closure1_loop (length prods * length prods) nl tab m.

(** The look-aheads of the items of a state pass to the kernel items of its
    successors. *)
Definition propagate_state nl tab (trs : list transition)
    (la : list la_map * bool) (i : nat) : list la_map * bool :=
  match nth_error (fst la) i with
  | None => la
  | Some kern =>
      fold_left (fun '(tbl, c) e =>
          let it := fst e in
          match after_dot it with
          | Some X =>
              match move trs i X with
              | Some j =>
                  match nth_error tbl j with
                  | Some mj =>
                      let (mj', c') := la_add mj (fst it, S (snd it)) (snd e) in
                      if c' then (update_nth j (fun _ => mj') tbl, true)
                      else (tbl, c)
                  | None => (tbl, c)
                  end
              | None => (tbl, c)
              end
          | None => (tbl, c)
          end) (closure1 nl tab kern) la
  end.

Definition propagate_pass nl tab trs (n : nat) (tbl : list la_map)
  : list la_map * bool :=
  fold_left (propagate_state nl tab trs) (seq 0 n) (tbl, false).

Fixpoint propagate_loop (fuel : nat) nl tab trs n (tbl : list la_map)
  : list la_map :=
  match fuel with
  | 0 => tbl
  | S fuel' =>
      let (tbl', c) := propagate_pass nl tab trs n tbl in
      if c then propagate_loop fuel' nl tab trs n tbl' else tbl'
  end.

Definition initial_la (sts : list (list item)) : list la_map :=
  match sts with
  | [] => []
  | k0 :: rest =>
      map (fun it => (it, [None])) k0 :: map (map (fun it => (it, []))) rest
  end.

Definition lalr_lookaheads nl tab (sts : list (list item))
    (trs : list transition) : list la_map :=
  propagate_loop (length sts * length prods) nl tab trs (length sts)
                 (initial_la sts).

(** *** The action rows *)

Definition candidates (trs : list transition) (i : nat) (m : la_map)
  : list (lookahead * act) :=
  flat_map (fun e =>
      let it := fst e in
      match after_dot it with
      | None =>
          map (fun a => (a, match fst it with 0 => Accept | p => Reduce p end))
              (snd e)
      | Some (T t) =>
          match move trs i (T t) with
          | Some j => [(Some t, Shift j)]
          | None => []
          end
      | Some (N _) => []
      end) m.

(** The resolution of a conflict between the action already in the row and a
    new one: shift before reduce, and the earlier production of two. *)
Definition resolve (old new : act) : act :=
  match old, new with
  | Shift s, Reduce _ => Shift s
  | Reduce _, Shift s => Shift s
  | Reduce p, Reduce q => if p <=? q then Reduce p else Reduce q
  | _, _ => old
  end.

Fixpoint put (row : list (lookahead * act)) (a : lookahead) (x : act)
  : list (lookahead * act) * bool :=
  match row with
  | [] => ([(a, x)], false)
  | (b, y) :: row' =>
      if lookahead_eqb a b then ((b, resolve y x) :: row', negb (act_eqb x y))
      else let (r, c) := put row' a x in ((b, y) :: r, c)
  end.

Definition state_row (trs : list transition) nl tab (i : nat) (kern : la_map)
  : list (lookahead * act) * list lookahead :=
  fold_left (fun '(row, cs) '(a, x) =>
      let (row', c) := put row a x in
      (row', if c then cs ++ [a] else cs))
    (candidates trs i (closure1 nl tab kern)) ([], []).

Definition lalr (fuel : nat) : tables :=
  let nl := nullables in
  let tab := firsts nl in
  let (sts, trs) := lr0_items fuel in
  let la := lalr_lookaheads nl tab sts trs in
  let rs := map (fun '(i, kern) => state_row trs nl tab i kern)
                (combine (seq 0 (length la)) la) in
  mkTables sts trs la (map fst rs)
           (flat_map (fun '(i, r) => map (fun a => (i, a)) (snd r))
                     (combine (seq 0 (length rs)) rs)).

End Generator.

(** [Productions] of the generated parser: production 0 is the start
    production, which is accepted and never reduced. *)
Definition Productions : list production :=
  mkProd S' [N path_arg] (fun _ => None) :: grammar.

(** [parser = yacc.yacc(...)]: the tables of the grammar. *)
Definition parsetab : tables := Eval vm_compute in lalr Productions 1000.

Definition action (s : nat) (a : lookahead) : option act :=
  match nth_error (rows parsetab) s with
  | Some row =>
      match find (fun e => lookahead_eqb (fst e) a) row with
      | Some e => Some (snd e)
      | None => None
      end
  | None => None
  end.

Definition goto (s : nat) (n : nonterminal) : option nat :=
  move (transitions parsetab) s (N n).

(** What [parse] does: it returns a value or raises an exception. *)
Definition result := outcome pyobj.

(** The state of the engine: the state stack and the stack of the values of
    the symbols (top first), and the tokens not yet shifted.  The engine
    reads one token ahead with [lexer.token()]; [rest] is what these calls
    have still to return, and the exception [pending], if any, is raised by
    the call after the last token. *)
Record config := mkConfig {
  statestack : list nat;
  symstack : list pyobj;
  rest : list LeafrefPathTok }.

Section Engine.

Variable pending : option exn.

(** A reduction by production [p]: the function of the production is called
    on the values of its right-hand side, which are popped together with as
    many states, and the state reached over the left-hand side is pushed. *)
Definition reduce (p : nat) (c : config) : config + result :=
  match nth_error Productions p with
  | None => inr (Raises InternalError)
  | Some pr =>
      let plen := length (prod pr) in
      match callable pr (rev (firstn plen (symstack c))) with
      | None => inr (Raises InternalError)
      | Some v =>
          match skipn plen (statestack c) with
          | [] => inr (Raises InternalError)
          | s :: below =>
              match goto s (name pr) with
              | None => inr (Raises InternalError)
              | Some s' =>
                  inl (mkConfig (s' :: s :: below)
                                (v :: skipn plen (symstack c)) (rest c))
              end
          end
      end
  end.

(** One turn of the loop of the engine. *)
Definition step (c : config) : config + result :=
  match statestack c with
  | [] => inr (Raises InternalError)
  | s :: _ =>
      match rest c with
      | t :: rest' =>
          match action s (Some (type t)) with
          | Some (Shift s') =>
              inl (mkConfig (s' :: statestack c)
                            (PyStr (value t) :: symstack c) rest')
          | Some (Reduce p) => reduce p c
          | Some Accept =>
              match symstack c with
              | v :: _ => inr (Returns v)
              | [] => inr (Raises InternalError)
              end
          | None => inr (Raises (p_error (Some t)))
          end
      | [] =>
          match pending with
          | Some e => inr (Raises e)
          | None =>
              match action s None with
              | Some (Shift _) => inr (Raises InternalError)
              | Some (Reduce p) => reduce p c
              | Some Accept =>
                  match symstack c with
                  | v :: _ => inr (Returns v)
                  | [] => inr (Raises InternalError)
                  end
              | None => inr (Raises (p_error None))
              end
          end
      end
  end.

(** The loop, for at most [fuel] turns. *)
Fixpoint run (fuel : nat) (c : config) : option result :=
  match fuel with
  | 0 => None
  | S fuel' =>
      match step c with
      | inl c' => run fuel' c'
      | inr r => Some r
      end
  end.

End Engine.

(** No run of reductions between two shifts is longer than this (see
    [reductions_bounded]). *)
Definition max_reductions : nat := 10.

(** [parser.parse(source, lexer=lexer)]: the lexer is given the source and
    the engine runs from state 0.  The number of turns allowed is enough for
    every input (see [parse_total]). *)
Definition yacc_parse (source : string) : option result :=
  let (toks, pending) := scan source in
  run pending ((max_reductions + 1) * (length toks + 1)) (mkConfig [0] [] toks).

(** [parse] of [leafref_path_parser]. *)
Definition parse (source : string) : option result := yacc_parse source.

(** ** Derivations, and the invariants of the engine *)

(** [derives X w v]: the symbol [X] derives the tokens [w] in the grammar,
    and the actions of the derivation compute the value [v]. *)
Inductive derives : symbol -> list LeafrefPathTok -> pyobj -> Prop :=
| derives_T t : derives (T (type t)) [t] (PyStr (value t))
| derives_N pr w vs v :
    In pr grammar ->
    derives_seq (prod pr) w vs ->
    callable pr vs = Some v ->
    derives (N (name pr)) w v
with derives_seq : list symbol -> list LeafrefPathTok -> list pyobj -> Prop :=
| derives_nil : derives_seq [] [] []
| derives_cons X Xs w ws v vs :
    derives X w v ->
    derives_seq Xs ws vs ->
    derives_seq (X :: Xs) (w ++ ws) (v :: vs).

Scheme derives_mut := Induction for derives Sort Prop
  with derives_seq_mut := Induction for derives_seq Sort Prop.

Combined Scheme derives_mutind from derives_mut, derives_seq_mut.

(** The stacks of the engine after it has read the tokens [w]: the state
    stack is a path of the automaton from state 0, and the symbols along the
    path derive [w] with the values of the value stack. *)
Inductive stack_inv : list nat -> list pyobj -> list LeafrefPathTok -> Prop :=
| stack_bottom : stack_inv [0] [] []
| stack_push s sts vals w X s' u v :
    stack_inv (s :: sts) vals w ->
    In (s, X, s') (transitions parsetab) ->
    derives X u v ->
    stack_inv (s' :: s :: sts) (v :: vals) (w ++ u).

(** The entries of the action table. *)
Definition entries : list (nat * lookahead * act) :=
  flat_map (fun '(s, row) => map (fun '(a, x) => (s, a, x)) row)
           (combine (seq 0 (length (rows parsetab))) (rows parsetab)).

(** [exposed f alpha_rev s]: every path of the automaton that ends in state
    [s] and is as long as [alpha_rev] spells [alpha_rev] backwards, and the
    state at its start satisfies [f]. *)
Fixpoint exposed (f : nat -> bool) (alpha_rev : list symbol) (s : nat) : bool :=
  match alpha_rev with
  | [] => f s
  | X :: alpha_rev' =>
      negb (s =? 0) &&
      forallb (fun '(s0, Y, s1) =>
                 if s1 =? s then symbol_eqb Y X && exposed f alpha_rev' s0
                 else true)
              (transitions parsetab)
  end.

Fixpoint exposed_states (alpha_rev : list symbol) (s : nat) : list nat :=
  match alpha_rev with
  | [] => [s]
  | X :: alpha_rev' =>
      flat_map (fun '(s0, Y, s1) =>
                  if (s1 =? s) && symbol_eqb Y X
                  then exposed_states alpha_rev' s0 else [])
               (transitions parsetab)
  end.

(** The longest run of reductions that can start in state [s] on the
    look-ahead [a]. *)
Fixpoint rank_of (fuel : nat) (a : lookahead) (s : nat) : nat :=
  match fuel with
  | 0 => 0
  | S fuel' =>
      match action s a with
      | Some (Reduce p) =>
          match nth_error Productions p with
          | Some pr =>
              S (fold_left Nat.max
                   (map (fun s0 => match goto s0 (name pr) with
                                   | Some t => rank_of fuel' a t
                                   | None => 0
                                   end)
                        (exposed_states (rev (prod pr)) s)) 0)
          | None => 0
          end
      | _ => 0
      end
  end.

Definition rank_table : list (list (lookahead * nat)) :=
  Eval vm_compute in
    map (fun '(s, row) => map (fun '(a, _) => (a, rank_of 12 a s)) row)
        (combine (seq 0 (length (rows parsetab))) (rows parsetab)).

Definition rank (a : lookahead) (s : nat) : nat :=
  match nth_error rank_table s with
  | Some row =>
      match find (fun e => lookahead_eqb (fst e) a) row with
      | Some e => snd e
      | None => 0
      end
  | None => 0
  end.

(** What the proofs need of an entry of the action table. *)
Definition entry_ok (e : nat * lookahead * act) : bool :=
  let '(s, a, x) := e in
  (rank a s <=? max_reductions) &&
  match x with
  | Shift j =>
      match a with
      | Some t => match move (transitions parsetab) s (T t) with
                  | Some j' => j' =? j
                  | None => false
                  end
      | None => false
      end
  | Reduce p =>
      match nth_error Productions p with
      | Some pr =>
          (0 <? p) &&
          exposed (fun s0 => match goto s0 (name pr) with
                             | Some t => rank a t <? rank a s
                             | None => false
                             end)
                  (rev (prod pr)) s
      | None => false
      end
  | Accept =>
      match a with
      | None => exposed (fun s0 => s0 =? 0) [N path_arg] s
      | Some _ => false
      end
  end.

(** The shapes of the values of the symbols, as far as the actions depend
    on them. *)
Inductive kind := KAny | KInt | KList | KPair | KQuad.

Definition kind_of (X : symbol) : kind :=
  match X with
  | T _ => KAny
  | N n =>
      match n with
      | dots_slash_seq | dots_wsp_slash_wsp_seq => KInt
      | absolute_path | descendant_path | absolute_path_segment
      | path_predicate_list | node_identifier_wsp_slash_wsp_list
      | absolute_path_segment_list => KList
      | relative_path | path_str | rel_path_keyexpr | path_key_expr
      | deref_function_invocation => KPair
      | deref_expr => KQuad
      | _ => KAny
      end
  end.

Definition has_kind (k : kind) (v : pyobj) : bool :=
  match k, v with
  | KAny, _ => true
  | KInt, PyInt _ => true
  | KList, PyList _ => true
  | KPair, PyTuple [_; _] => true
  | KQuad, PyTuple [_; _; _; _] => true
  | _, _ => false
  end.

(** The look-ahead of a configuration and the measure that decreases at
    every turn of the engine. *)
Definition lookahead_of (c : config) : lookahead :=
  match rest c with t :: _ => Some (type t) | [] => None end.

Definition top (c : config) : nat := hd 0 (statestack c).

Definition measure (c : config) : nat :=
  (max_reductions + 1) * length (rest c) + rank (lookahead_of c) (top c) + 1.

(** How a parse ends on the tokens [toks] followed by the exception
    [pending] of the lexer: with the value of a derivation of [path_arg],
    with the exception of the lexer once every token is read, or with the
    exception of [p_error] for the first token (or the end of the input) for
    which the state reached after the tokens before it has no action. *)
Inductive final (toks : list LeafrefPathTok) (pending : option exn)
  : result -> Prop :=
| final_value v :
    pending = None ->
    derives (N path_arg) toks v ->
    final toks pending (Returns v)
| final_lexer e s sts vals :
    pending = Some e ->
    stack_inv (s :: sts) vals toks ->
    final toks pending (Raises e)
| final_token w t rest' s sts vals :
    toks = w ++ t :: rest' ->
    stack_inv (s :: sts) vals w ->
    action s (Some (type t)) = None ->
    final toks pending (Raises (p_error (Some t)))
| final_end s sts vals :
    pending = None ->
    stack_inv (s :: sts) vals toks ->
    action s None = None ->
    final toks pending (Raises (p_error None)).

(** ** Definitions used by the statements *)

(** A value of the shape of its symbol. *)
Definition well_kinded (X : symbol) (v : pyobj) : Prop :=
  has_kind (kind_of X) v = true.

(** The tokens [toks] split into those read, which the stacks account for,
    and those still to read. *)
Definition Inv (toks : list LeafrefPathTok) (c : config) : Prop :=
  exists w, toks = w ++ rest c /\ stack_inv (statestack c) (symstack c) w.

(** The text of a list of tokens: their values, concatenated. *)
Definition text_of (toks : list LeafrefPathTok) : string :=
  fold_right (fun t s => value t +++ s) EmptyString toks.

(** The tokens start at consecutive columns from [pos]. *)
Fixpoint columns_from (pos : nat) (toks : list LeafrefPathTok) : Prop :=
  match toks with
  | [] => True
  | t :: toks' =>
      lexpos t = pos /\ columns_from (pos + String.length (value t)) toks'
  end.

(** The type of a token against its value: the keyword types are those of
    the values [current] and [deref], and of no other. *)
Definition keyword_type (v : string) (k : toktype) : Prop :=
  (k = CURRENT_KEYWORD <-> v = "current"%string) /\
  (k = DEREF_KEYWORD <-> v = "deref"%string).

(** A deref invocation in a list of token types: [DEREF_KEYWORD] followed by
    [LEFT_PARENTHESIS], with or without whitespace between them. *)
Fixpoint has_deref_call (w : list toktype) : bool :=
  match w with
  | [] => false
  | DEREF_KEYWORD :: w' =>
      match w' with
      | LEFT_PARENTHESIS :: _ => true
      | WSP :: LEFT_PARENTHESIS :: _ => true
      | _ => has_deref_call w'
      end
  | _ :: w' => has_deref_call w'
  end.

(** [guarded g w]: every [LEFT_PARENTHESIS] of [w] comes directly after
    [CURRENT_KEYWORD] or after [CURRENT_KEYWORD WSP]; the state [g] records
    how much of this has just been read. *)
Inductive guard := G0 | G1 | G2.

Definition guard_next (g : guard) (a : toktype) : option guard :=
  match a with
  | LEFT_PARENTHESIS => match g with G0 => None | _ => Some G0 end
  | CURRENT_KEYWORD => Some G1
  | WSP => match g with G1 => Some G2 | _ => Some G0 end
  | _ => Some G0
  end.

Fixpoint guarded (g : guard) (w : list toktype) : bool :=
  match w with
  | [] => true
  | a :: w' =>
      match guard_next g a with
      | Some g' => guarded g' w'
      | None => false
      end
  end.

Definition lp_forms : list (list toktype) :=
  [ [LEFT_PARENTHESIS]; [WSP; LEFT_PARENTHESIS];
    [LEFT_PARENTHESIS; WSP]; [WSP; LEFT_PARENTHESIS; WSP] ].

Definition deref_form (w : list toktype) : Prop :=
  exists l r, In l lp_forms /\ w = DEREF_KEYWORD :: l ++ r /\ guarded G0 r = true.

(** What the words of each symbol look like. *)
Definition yield_ok (X : symbol) (w : list toktype) : Prop :=
  match X with
  | T a => w = [a]
  | N wsp_left_parenthesis_wsp => In w lp_forms
  | N deref_function_invocation | N deref_expr => deref_form w
  | N path_arg | N S' => guarded G0 w = true \/ deref_form w
  | N _ => guarded G0 w = true
  end.

Inductive yield_seq : list symbol -> list toktype -> Prop :=
| yield_nil : yield_seq [] []
| yield_cons X Xs u us :
    yield_ok X u -> yield_seq Xs us -> yield_seq (X :: Xs) (u ++ us).

(** ** Paths made of node identifiers *)

Fixpoint all_chars (cls : ascii -> bool) (s : string) : bool :=
  match s with
  | EmptyString => true
  | String c s' => cls c && all_chars cls s'
  end.

(** The strings that the pattern of [IDENTIFIER] matches entirely. *)
Definition is_identifier (s : string) : bool :=
  match s with
  | EmptyString => false
  | String c s' => is_ident_start c && all_chars is_ident_char s'
  end.

(** A node identifier as it is written: [name] or [pfx:name]. *)
Inductive NodeId :=
| Plain (name : string)
| Qualified (pfx name : string).

Definition valid_id (id : NodeId) : bool :=
  match id with
  | Plain n => is_identifier n
  | Qualified p n => is_identifier p && is_identifier n
  end.

Definition id_text (id : NodeId) : string :=
  match id with
  | Plain n => n
  | Qualified p n => p +++ ":" +++ n
  end.

(** The value that [p_node_identifier] gives it: a string, or a pair. *)
Definition id_value (id : NodeId) : pyobj :=
  match id with
  | Plain n => PyStr n
  | Qualified p n => PyTuple [PyStr p; PyStr n]
  end.

(** [/id1/id2/.../idn]. *)
Fixpoint absolute_text (ids : list NodeId) : string :=
  match ids with
  | [] => EmptyString
  | id :: ids' => "/" +++ id_text id +++ absolute_text ids'
  end.

Definition ident_tok (n : string) (pos : nat) : LeafrefPathTok :=
  mkTok (dict_get functions n IDENTIFIER) n 1 pos.

Definition id_tokens (id : NodeId) (pos : nat) : list LeafrefPathTok :=
  match id with
  | Plain n => [ident_tok n pos]
  | Qualified p n =>
      [ident_tok p pos; mkTok COLON ":" 1 (pos + String.length p);
       ident_tok n (pos + String.length p + 1)]
  end.

Fixpoint absolute_tokens (ids : list NodeId) (pos : nat) : list LeafrefPathTok :=
  match ids with
  | [] => []
  | id :: ids' =>
      mkTok SLASH "/" 1 pos :: id_tokens id (pos + 1) ++
      absolute_tokens ids' (pos + 1 + String.length (id_text id))
  end.

(** The engine run for a number of turns, and what it reaches. *)
Fixpoint steps (pending : option exn) (n : nat) (c : config) : config + result :=
  match n with
  | 0 => inl c
  | S n' =>
      match step pending c with
      | inl c' => steps pending n' c'
      | inr r => inr r
      end
  end.

Definition reaches (pending : option exn) (c c' : config) : Prop :=
  exists n, steps pending n c = inl c'.

Definition ends (pending : option exn) (c : config) (r : result) : Prop :=
  exists fuel, run pending fuel c = Some r.

(** What may follow a node identifier of a path: a slash, a closing
    parenthesis, or the end. *)
Definition path_follow (pending : option exn) (rest : list LeafrefPathTok) : Prop :=
  match rest with
  | [] => pending = None
  | t :: _ => type t = SLASH \/ type t = RIGHT_PARENTHESIS
  end.

(** What may follow a whole path: a closing parenthesis, or the end. *)
Definition path_end (pending : option exn) (rest : list LeafrefPathTok) : Prop :=
  match rest with
  | [] => pending = None
  | t :: _ => type t = RIGHT_PARENTHESIS
  end.

(** The list of tokens starts with a token of one of the types [ks]. *)
Definition starts_with (ks : list toktype) (rest : list LeafrefPathTok) : Prop :=
  match rest with
  | [] => False
  | t :: _ => In (type t) ks
  end.

(** A relative path of node identifiers: [ups] times [../], then
    [first/other1/.../othern]. *)
Record RelPath := mkRel {
  ups : nat;
  first : NodeId;
  others : list NodeId }.

Fixpoint dots_text (n : nat) : string :=
  match n with
  | 0 => EmptyString
  | S n' => "../" +++ dots_text n'
  end.

Definition rel_text (r : RelPath) : string :=
  dots_text (ups r) +++ id_text (first r) +++ absolute_text (others r).

Definition rel_valid (r : RelPath) : bool :=
  valid_id (first r) && forallb valid_id (others r).

Definition rel_ids (r : RelPath) : pyobj :=
  PyList (map id_value (first r :: others r)).

(** The value of [relative_path]: the pair of the count and the list. *)
Definition rel_value (r : RelPath) : pyobj :=
  PyTuple [PyInt (Z.of_nat (ups r)); rel_ids r].

Fixpoint dots_tokens (n pos : nat) : list LeafrefPathTok :=
  match n with
  | 0 => []
  | S n' =>
      mkTok DOTS ".." 1 pos :: mkTok SLASH "/" 1 (pos + 2) ::
      dots_tokens n' (pos + 3)
  end.

Definition rel_tokens (r : RelPath) (pos : nat) : list LeafrefPathTok :=
  dots_tokens (ups r) pos ++
  id_tokens (first r) (pos + 3 * ups r) ++
  absolute_tokens (others r)
                  (pos + 3 * ups r + String.length (id_text (first r))).

(** The first word of a node identifier: its prefix, or its name. *)
Definition first_word (id : NodeId) : string :=
  match id with
  | Plain n => n
  | Qualified p _ => p
  end.

(** What may follow an identifier in the source: no character that could
    continue it, and no colon. *)
Definition boundary (rest : string) : Prop :=
  match rest with
  | EmptyString => True
  | String c _ => is_ident_char c = false /\ c <> ":"%char
  end.

(** ** Facts about the tables *)

Lemma toktype_beq_eq x y : toktype_beq x y = true <-> x = y.
Proof.
  split; [apply internal_toktype_dec_bl | apply internal_toktype_dec_lb].
Qed.

Lemma nonterminal_beq_eq x y : nonterminal_beq x y = true <-> x = y.
Proof.
  split; [apply internal_nonterminal_dec_bl | apply internal_nonterminal_dec_lb].
Qed.

Lemma symbol_eqb_eq X Y : symbol_eqb X Y = true <-> X = Y.
Proof.
  destruct X, Y; simpl; rewrite ?toktype_beq_eq, ?nonterminal_beq_eq;
    split; congruence.
Qed.

Lemma lookahead_eqb_eq a b : lookahead_eqb a b = true <-> a = b.
Proof.
  destruct a, b; simpl; rewrite ?toktype_beq_eq; split; congruence.
Qed.

Lemma combine_seq_In {A} (l : list A) i x :
  nth_error l i = Some x -> forall a, In (a + i, x) (combine (seq a (length l)) l).
Proof.
  revert i; induction l as [|y l IH]; intros [|i]; simpl; try discriminate.
  - intros [= ->] a. left. f_equal. lia.
  - intros H a. right. replace (a + S i) with (S a + i) by lia. apply IH, H.
Qed.

Lemma action_entry s a x : action s a = Some x -> In (s, a, x) entries.
Proof.
  unfold action, entries.
  destruct (nth_error (rows parsetab) s) as [row|] eqn:E; [|discriminate].
  match goal with |- context [find ?f row] =>
    destruct (find f row) as [[b y]|] eqn:F; [|discriminate] end.
  intros [= <-]. apply find_some in F. destruct F as [Hin Hb].
  apply lookahead_eqb_eq in Hb. simpl in Hb. subst b.
  apply in_flat_map. exists (s, row). split.
  - apply (combine_seq_In _ _ _ E 0).
  - apply in_map_iff. exists (a, y). auto.
Qed.

Lemma entries_ok : forallb entry_ok entries = true.
Proof. vm_compute. reflexivity. Qed.

Lemma action_ok s a x : action s a = Some x -> entry_ok (s, a, x) = true.
Proof.
  intros H. apply action_entry in H.
  pose proof entries_ok as P. rewrite forallb_forall in P. apply (P _ H).
Qed.

Lemma move_In trs s X j : move trs s X = Some j -> In (s, X, j) trs.
Proof.
  unfold move.
  match goal with |- context [find ?f trs] =>
    destruct (find f trs) as [[[s' Y] j']|] eqn:F; [|discriminate] end.
  intros [= <-]. apply find_some in F. destruct F as [Hin Hb].
  apply andb_true_iff in Hb. destruct Hb as [Hs HY].
  apply Nat.eqb_eq in Hs. apply symbol_eqb_eq in HY. subst. assumption.
Qed.

Lemma no_transition_to_0 :
  forallb (fun '(_, _, j) => negb (j =? 0)) (transitions parsetab) = true.
Proof. vm_compute. reflexivity. Qed.

Lemma transition_target s X j : In (s, X, j) (transitions parsetab) -> j <> 0.
Proof.
  intros H. pose proof no_transition_to_0 as P. rewrite forallb_forall in P.
  specialize (P _ H). simpl in P. destruct j; [discriminate|lia].
Qed.

(** ** Derivations and the stacks *)

Lemma derives_seq_app Xs Ys w1 w2 vs1 vs2 :
  derives_seq Xs w1 vs1 -> derives_seq Ys w2 vs2 ->
  derives_seq (Xs ++ Ys) (w1 ++ w2) (vs1 ++ vs2).
Proof.
  induction 1; simpl; intros H2; [assumption|].
  rewrite <- app_assoc. constructor; auto.
Qed.

Lemma derives_seq_length Xs w vs : derives_seq Xs w vs -> length vs = length Xs.
Proof. induction 1; simpl; congruence. Qed.

Lemma stack_inv_0 sts vals w :
  stack_inv (0 :: sts) vals w -> sts = [] /\ vals = [] /\ w = [].
Proof.
  inversion 1; subst; auto.
  exfalso. eapply transition_target; eauto.
Qed.

Lemma exposed_cons f X alpha_rev s :
  exposed f (X :: alpha_rev) s =
  negb (s =? 0) &&
  forallb (fun '(s0, Y, s1) =>
             if s1 =? s then symbol_eqb Y X && exposed f alpha_rev s0
             else true)
          (transitions parsetab).
Proof. reflexivity. Qed.

(** Popping the right-hand side of a production off the stacks. *)
Lemma stack_pop f alpha_rev : forall s sts vals w,
  stack_inv (s :: sts) vals w ->
  exposed f alpha_rev s = true ->
  exists s0 sts0 vals0 w0 us vs,
    skipn (length alpha_rev) (s :: sts) = s0 :: sts0 /\
    firstn (length alpha_rev) vals = rev vs /\
    skipn (length alpha_rev) vals = vals0 /\
    w = w0 ++ us /\
    stack_inv (s0 :: sts0) vals0 w0 /\
    derives_seq (rev alpha_rev) us vs /\
    f s0 = true.
Proof.
  induction alpha_rev as [|X alpha_rev IH]; intros s sts vals w Hs He.
  - exists s, sts, vals, w, [], []. simpl in *.
    rewrite app_nil_r. repeat split; auto. constructor.
  - rewrite exposed_cons in He. apply andb_true_iff in He.
    destruct He as [Hnz Hall].
    inversion Hs; subst.
    + discriminate.
    + rewrite forallb_forall in Hall.
      match goal with H : In _ (transitions parsetab) |- _ =>
        pose proof (Hall _ H) as Q end.
      simpl in Q. rewrite Nat.eqb_refl in Q.
      apply andb_true_iff in Q. destruct Q as [HX Hrec].
      apply symbol_eqb_eq in HX. subst.
      match goal with H : stack_inv (_ :: _) _ _ |- _ =>
        destruct (IH _ _ _ _ H Hrec)
          as (s1 & sts1 & vals1 & w1 & us & vs & E1 & E2 & E3 & E4 & I & D & F)
      end.
      exists s1, sts1, vals1, w1, (us ++ u), (vs ++ [v]).
      simpl. rewrite rev_app_distr. simpl. subst.
      repeat split; auto.
      * now rewrite E2.
      * now rewrite <- app_assoc.
      * apply derives_seq_app; [assumption|].
        rewrite <- (app_nil_r u). repeat constructor. assumption.
Qed.

(** ** The actions never fail on the values of the grammar *)

Lemma has_kind_int v : has_kind KInt v = true -> exists n, v = PyInt n.
Proof. destruct v; simpl; try discriminate; eauto. Qed.

Lemma has_kind_list v : has_kind KList v = true -> exists l, v = PyList l.
Proof. destruct v; simpl; try discriminate; eauto. Qed.

Lemma has_kind_pair v : has_kind KPair v = true -> exists a b, v = PyTuple [a; b].
Proof.
  destruct v as [| | |[|a [|b [|? ?]]]| | |]; simpl; try discriminate; eauto.
Qed.

Lemma has_kind_quad v :
  has_kind KQuad v = true -> exists a b c d, v = PyTuple [a; b; c; d].
Proof.
  destruct v as [| | |[|a [|b [|c [|d [|? ?]]]]]| | |]; simpl;
    try discriminate; eauto 6.
Qed.

Ltac invert_kinds :=
  repeat match goal with
  | H : Forall2 _ (_ :: _) _ |- _ => inversion H; subst; clear H
  | H : Forall2 _ [] _ |- _ => inversion H; subst; clear H
  end;
  unfold well_kinded in *; simpl kind_of in *;
  repeat match goal with
  | H : has_kind KInt _ = true |- _ => apply has_kind_int in H; destruct H as [? ->]
  | H : has_kind KList _ = true |- _ => apply has_kind_list in H; destruct H as [? ->]
  | H : has_kind KPair _ = true |- _ =>
      apply has_kind_pair in H; destruct H as (? & ? & ->)
  | H : has_kind KQuad _ = true |- _ =>
      apply has_kind_quad in H; destruct H as (? & ? & ? & ? & ->)
  | H : has_kind KAny _ = true |- _ => clear H
  end.

Lemma callable_kind pr vs :
  In pr grammar ->
  Forall2 well_kinded (prod pr) vs ->
  exists v, callable pr vs = Some v /\ well_kinded (N (name pr)) v.
Proof.
  intros Hin. unfold grammar in Hin. simpl in Hin.
  repeat (destruct Hin as [<- | Hin]; [
    simpl; intros HF; invert_kinds; simpl;
    try (eexists; split; reflexivity);
    match goal with
    | |- context [isinstance_list ?v] =>
        destruct v; simpl; eexists; split; reflexivity
    end | ]).
  contradiction.
Qed.

Lemma derives_kind :
  (forall X w v, derives X w v -> well_kinded X v) /\
  (forall Xs w vs, derives_seq Xs w vs -> Forall2 well_kinded Xs vs).
Proof.
  apply derives_mutind.
  - intros; reflexivity.
  - intros pr w vs v Hin _ IH Hc.
    destruct (callable_kind pr vs Hin IH) as (v' & Hc' & K).
    congruence.
  - constructor.
  - intros; constructor; assumption.
Qed.

(** ** One turn of the engine *)

Lemma stack_inv_nonempty sts vals w :
  stack_inv sts vals w -> exists s sts', sts = s :: sts'.
Proof. inversion 1; eauto. Qed.

Lemma rank_bounded :
  forallb (forallb (fun e : lookahead * nat => snd e <=? max_reductions))
          rank_table = true.
Proof. vm_compute. reflexivity. Qed.

Lemma rank_le a s : rank a s <= max_reductions.
Proof.
  unfold rank. pose proof rank_bounded as P. rewrite forallb_forall in P.
  destruct (nth_error rank_table s) as [row|] eqn:E; [|lia].
  apply nth_error_In in E. specialize (P _ E). rewrite forallb_forall in P.
  match goal with |- context [find ?f row] =>
    destruct (find f row) as [e|] eqn:F; [|lia] end.
  apply find_some in F. destruct F as [F _].
  apply Nat.leb_le. apply (P _ F).
Qed.

Lemma Productions_grammar p pr :
  0 < p -> nth_error Productions p = Some pr -> In pr grammar.
Proof.
  destruct p; [lia|]. intros _ H. unfold Productions in H. simpl in H.
  eapply nth_error_In; eassumption.
Qed.

Lemma reduce_spec toks c s sts a p :
  Inv toks c ->
  statestack c = s :: sts ->
  action s a = Some (Reduce p) ->
  exists c', reduce p c = inl c' /\ Inv toks c' /\ rest c' = rest c /\
             rank a (top c') < rank a s.
Proof.
  intros (w & Hw & Hs) Hst Ha. apply action_ok in Ha.
  unfold entry_ok in Ha. apply andb_true_iff in Ha. destruct Ha as [_ Ha].
  destruct (nth_error Productions p) as [pr|] eqn:Hp; [|discriminate].
  apply andb_true_iff in Ha. destruct Ha as [Hpos He].
  apply Nat.ltb_lt in Hpos.
  rewrite Hst in Hs.
  destruct (stack_pop _ _ _ _ _ _ Hs He)
    as (s0 & sts0 & vals0 & w0 & us & vs & E1 & E2 & E3 & E4 & I & D & F).
  rewrite length_rev in E1, E2, E3. rewrite rev_involutive in D.
  pose proof (Productions_grammar _ _ Hpos Hp) as Hin.
  destruct (callable_kind pr vs Hin (proj2 derives_kind _ _ _ D)) as (v & Hc & _).
  destruct (goto s0 (name pr)) as [t|] eqn:Hg; [|discriminate].
  apply Nat.ltb_lt in F.
  exists (mkConfig (t :: s0 :: sts0) (v :: vals0) (rest c)).
  split; [|split; [|split]].
  - unfold reduce. rewrite Hp, E2, rev_involutive, Hc, Hst, E1, Hg, E3.
    reflexivity.
  - exists (w0 ++ us). simpl. split; [congruence|].
    econstructor; [eassumption| |].
    + apply move_In. exact Hg.
    + econstructor; eassumption.
  - reflexivity.
  - exact F.
Qed.

Lemma shift_spec toks c s sts t rest' j :
  Inv toks c ->
  statestack c = s :: sts ->
  rest c = t :: rest' ->
  action s (Some (type t)) = Some (Shift j) ->
  Inv toks (mkConfig (j :: statestack c) (PyStr (value t) :: symstack c) rest').
Proof.
  intros (w & Hw & Hs) Hst Hr Ha. apply action_ok in Ha.
  unfold entry_ok in Ha. apply andb_true_iff in Ha. destruct Ha as [_ Ha].
  destruct (move (transitions parsetab) s (T (type t))) as [j'|] eqn:Hm;
    [|discriminate].
  apply Nat.eqb_eq in Ha. subst j'.
  exists (w ++ [t]). simpl. split.
  - rewrite Hw, Hr, <- app_assoc. reflexivity.
  - rewrite Hst in *. econstructor; [eassumption| |].
    + apply move_In. exact Hm.
    + constructor.
Qed.

Lemma accept_spec toks c s sts :
  Inv toks c ->
  statestack c = s :: sts ->
  rest c = [] ->
  action s None = Some Accept ->
  exists v vals, symstack c = v :: vals /\ derives (N path_arg) toks v.
Proof.
  intros (w & Hw & Hs) Hst Hr Ha. apply action_ok in Ha.
  unfold entry_ok in Ha. apply andb_true_iff in Ha. destruct Ha as [_ He].
  rewrite Hst in Hs.
  destruct (stack_pop _ _ _ _ _ _ Hs He)
    as (s0 & sts0 & vals0 & w0 & us & vs & E1 & E2 & E3 & E4 & I & D & F).
  apply Nat.eqb_eq in F. subst s0.
  apply stack_inv_0 in I. destruct I as (-> & -> & ->).
  simpl in D. inversion D as [|X Xs w1 ws v1 vs1 D1 D2]; subst.
  inversion D2; subst.
  simpl in E2. destruct (symstack c) as [|v vals]; [discriminate|].
  injection E2 as ->. exists v1, vals. split; [reflexivity|].
  rewrite Hr, !app_nil_r. simpl. assumption.
Qed.

Lemma accept_at_end s t : action s (Some t) <> Some Accept.
Proof.
  intros Ha. apply action_ok in Ha. unfold entry_ok in Ha.
  apply andb_true_iff in Ha. destruct Ha as [_ Ha]. discriminate.
Qed.

Lemma shift_at_end s j : action s None <> Some (Shift j).
Proof.
  intros Ha. apply action_ok in Ha. unfold entry_ok in Ha.
  apply andb_true_iff in Ha. destruct Ha as [_ Ha]. discriminate.
Qed.

(** A turn either goes on, from a configuration that keeps the invariant
    and has a smaller measure, or ends the parse as [final] describes. *)
Lemma step_spec toks pending c :
  Inv toks c ->
  match step pending c with
  | inl c' => Inv toks c' /\ measure c' < measure c
  | inr r => final toks pending r
  end.
Proof.
  intros HI. pose proof HI as (w & Hw & Hs).
  destruct (stack_inv_nonempty _ _ _ Hs) as (s & sts & Hst).
  unfold step. rewrite Hst.
  destruct (rest c) as [|t rest'] eqn:Hr.
  - destruct pending as [e|] eqn:Hp.
    + rewrite app_nil_r in Hw. subst w. rewrite Hst in Hs.
      eapply final_lexer; eauto.
    + destruct (action s None) as [[j|p|]|] eqn:Ha.
      * exfalso. eapply shift_at_end; eauto.
      * destruct (reduce_spec _ _ _ _ _ _ HI Hst Ha) as (c' & -> & I' & R' & K).
        split; [assumption|]. unfold measure, lookahead_of, top at 2.
        rewrite R', Hr, Hst. simpl hd. lia.
      * destruct (accept_spec _ _ _ _ HI Hst Hr Ha) as (v & vals & -> & D).
        apply final_value; auto.
      * rewrite app_nil_r in Hw. subst w. rewrite Hst in Hs.
        eapply final_end; eauto.
  - destruct (action s (Some (type t))) as [[j|p|]|] eqn:Ha.
    + rewrite <- Hst. split.
      * eapply shift_spec; eauto.
      * unfold measure. simpl rest. rewrite Hr. simpl length.
        pose proof (rank_le (lookahead_of
          (mkConfig (j :: statestack c) (PyStr (value t) :: symstack c) rest'))
          (top (mkConfig (j :: statestack c) (PyStr (value t) :: symstack c) rest'))).
        lia.
    + destruct (reduce_spec _ _ _ _ _ _ HI Hst Ha) as (c' & -> & I' & R' & K).
      split; [assumption|]. unfold measure, lookahead_of, top at 2.
      rewrite R', Hr, Hst. simpl hd. lia.
    + exfalso. eapply accept_at_end; eauto.
    + rewrite Hst in Hs. eapply final_token; eauto.
Qed.

(** The engine stops within [measure c] turns. *)
Theorem run_final toks pending : forall fuel c,
  Inv toks c -> measure c <= fuel ->
  exists r, run pending fuel c = Some r /\ final toks pending r.
Proof.
  induction fuel as [|fuel IH]; intros c HI Hm.
  - unfold measure in Hm. lia.
  - simpl. pose proof (step_spec toks pending c HI) as H.
    destruct (step pending c) as [c'|r].
    + destruct H as [I' M']. apply IH; [assumption|lia].
    + exists r. auto.
Qed.

Lemma run_more pending : forall fuel fuel' c r,
  run pending fuel c = Some r -> fuel <= fuel' -> run pending fuel' c = Some r.
Proof.
  induction fuel as [|fuel IH]; intros fuel' c r H L; [discriminate|].
  destruct fuel' as [|fuel']; [lia|]. simpl in *.
  destruct (step pending c); [|assumption].
  apply IH with (1 := H). lia.
Qed.

(** [parse] always ends, and as [final] describes. *)
Theorem parse_final source :
  exists r, parse source = Some r /\
            final (fst (scan source)) (snd (scan source)) r.
Proof.
  unfold parse, yacc_parse. destruct (scan source) as [toks pending]. simpl.
  apply run_final.
  - exists []. split; [reflexivity|constructor].
  - unfold measure. simpl rest.
    pose proof (rank_le (lookahead_of (mkConfig [0] [] toks))
                        (top (mkConfig [0] [] toks))).
    unfold max_reductions in *. lia.
Qed.

(** ** The lexer *)

Lemma append_assoc s t u : (s +++ t) +++ u = s +++ t +++ u.
Proof. induction s; simpl; congruence. Qed.

Lemma append_nil_r s : s +++ EmptyString = s.
Proof. induction s; simpl; congruence. Qed.

Lemma text_of_app a b : text_of (a ++ b) = text_of a +++ text_of b.
Proof.
  induction a as [|t a IH]; simpl; [reflexivity|].
  rewrite IH, append_assoc. reflexivity.
Qed.

(** The defining equation of [scan_from]. *)
Lemma scan_from_eq source linepos :
  scan_from source linepos =
  match source with
  | EmptyString => ([], None)
  | _ =>
    match match_at source with
    | Some (tokname, v, rest) =>
      let tokname := match tokname with
                     | IDENTIFIER => dict_get functions v tokname
                     | _ => tokname
                     end in
      let '(toks, err) := scan_from rest (linepos + String.length v) in
      (mkTok tokname v 1 linepos :: toks, err)
    | None => ([], Some (LexError 1 linepos))
    end
  end.
Proof.
  destruct source as [|a s]; [apply scan_from_equation_1|].
  rewrite scan_from_equation_2. unfold inspect.
  enough (G : forall o (e : match_at (String a s) = o),
    scan_from_unfold_clause_2 a s (exist _ o e) linepos =
    match o with
    | Some (tokname, v, rest) =>
      let tokname := match tokname with
                     | IDENTIFIER => dict_get functions v tokname
                     | _ => tokname
                     end in
      let '(toks, err) := scan_from rest (linepos + String.length v) in
      (mkTok tokname v 1 linepos :: toks, err)
    | None => ([], Some (LexError 1 linepos))
    end) by apply G.
  intros [[[k v] rest]|] e; reflexivity.
Qed.

(** What a scan from a position yields: the source is the text of the
    tokens followed by the part not read, which is empty when the generator
    ends normally and otherwise starts where no pattern matches; the error
    carries line 1 and the column of that place. *)
Lemma scan_from_spec : forall n source linepos toks err,
  String.length source <= n ->
  scan_from source linepos = (toks, err) ->
  columns_from linepos toks /\
  Forall (fun t => value t <> EmptyString /\ lineno t = 1) toks /\
  exists unread,
    source = text_of toks +++ unread /\
    match err with
    | None => unread = EmptyString
    | Some e =>
        e = LexError 1 (linepos + String.length (text_of toks)) /\
        unread <> EmptyString /\ match_at unread = None
    end.
Proof.
  induction n as [|n IH]; intros source linepos toks err Hn; rewrite scan_from_eq.
  - destruct source; [|simpl in Hn; lia]. intros [= <- <-].
    simpl. repeat split; auto. exists EmptyString. auto.
  - destruct source as [|c s].
    { intros [= <- <-]. simpl. repeat split; auto. exists EmptyString. auto. }
    destruct (match_at (String c s)) as [[[k v] rest]|] eqn:E.
    + pose proof (match_at_spec _ _ _ _ E) as [Hs Hv].
      pose proof (match_at_shorter _ _ _ _ E) as Hl.
      destruct (scan_from rest (linepos + String.length v)) as [toks' err'] eqn:R.
      cbv zeta. intros [= <- <-].
      destruct (IH rest (linepos + String.length v) toks' err')
        as (Hc & Hf & unread & Hu & He); [simpl in *; lia | exact R |].
      simpl. repeat split; auto.
      exists unread. split.
      * rewrite append_assoc, <- Hu. exact Hs.
      * destruct err' as [e|]; [|exact He].
        destruct He as (-> & ? & ?). repeat split; auto.
        rewrite length_append. apply (f_equal (LexError 1)). lia.
    + intros [= <- <-]. simpl. repeat split; auto.
      exists (String c s). repeat split; auto;
        try discriminate; apply (f_equal (LexError 1)); lia.
Qed.

Lemma columns_from_app pos a t b :
  columns_from pos (a ++ t :: b) ->
  lexpos t = pos + String.length (text_of a).
Proof.
  revert pos; induction a as [|x a IH]; simpl; intros pos.
  - intros [H _]. lia.
  - intros [_ H]. rewrite (IH _ H), length_append. lia.
Qed.

Lemma span_all cls s v r :
  span cls s = (v, r) -> forall c v', v = String c v' -> cls c = true.
Proof.
  destruct s as [|a s]; simpl.
  - intros [= <- <-]. discriminate.
  - destruct (cls a) eqn:E.
    + destruct (span cls s). intros [= <- <-] c v' [= <- <-]. exact E.
    + intros [= <- <-]. discriminate.
Qed.

Lemma re_match_lit text s v rest :
  re_match (Lit text) s = Some (v, rest) -> v = text.
Proof.
  simpl. destruct (strip_prefix text s); [|discriminate]. congruence.
Qed.

Lemma match_at_type s k v rest :
  match_at s = Some (k, v, rest) ->
  keyword_type v (match k with
                  | IDENTIFIER => dict_get functions v k
                  | _ => k
                  end).
Proof.
  intros H. apply first_match_In in H. destruct H as (r & Hin & Hm).
  unfold patterns in Hin. simpl in Hin.
  repeat match type of Hin with
  | _ \/ _ => destruct Hin as [Hin | Hin]
  end; try contradiction; injection Hin as <- <-;
    try (apply re_match_lit in Hm; subst v; split; split; discriminate).
  - simpl in Hm. destruct (span is_wsp s) as [v' r'] eqn:E.
    destruct v' as [|c v']; [discriminate|]. injection Hm as <- <-.
    pose proof (span_all _ _ _ _ E c v' eq_refl) as W.
    split; split; try discriminate; intros [= -> _]; discriminate.
  - unfold keyword_type, functions. cbn [dict_get].
    destruct (String.eqb_spec "current" v) as [<-|N1].
    { split; split; auto; discriminate. }
    destruct (String.eqb_spec "deref" v) as [<-|N2].
    { split; split; auto; discriminate. }
    split; split; try discriminate; congruence.
Qed.

Lemma scan_from_types : forall n source linepos toks err,
  String.length source <= n ->
  scan_from source linepos = (toks, err) ->
  Forall (fun t => keyword_type (value t) (type t)) toks.
Proof.
  induction n as [|n IH]; intros source linepos toks err Hn; rewrite scan_from_eq.
  - destruct source; [|simpl in Hn; lia]. intros [= <- <-]. constructor.
  - destruct source as [|c s]; [intros [= <- <-]; constructor|].
    destruct (match_at (String c s)) as [[[k v] rest]|] eqn:E.
    + pose proof (match_at_shorter _ _ _ _ E) as Hl.
      destruct (scan_from rest (linepos + String.length v)) as [toks' err'] eqn:R.
      cbv zeta. intros [= <- <-]. constructor.
      * simpl. eapply match_at_type; eassumption.
      * eapply IH; [|exact R]. simpl in *; lia.
    + intros [= <- <-]. constructor.
Qed.

(** ** Where a deref invocation can stand *)

Lemma guarded_order : forall w,
  (guarded G0 w = true -> guarded G2 w = true) /\
  (guarded G2 w = true -> guarded G1 w = true) /\
  (guarded G0 w = true -> guarded G1 w = true).
Proof.
  induction w as [|a w (IH1 & IH2 & IH3)]; [auto|].
  destruct a; simpl; repeat split; auto; discriminate.
Qed.

Lemma guarded_weaken : forall w g, guarded G0 w = true -> guarded g w = true.
Proof.
  intros w g H. destruct g; [assumption| |]; apply guarded_order; assumption.
Qed.

Lemma guarded_app : forall u v g,
  guarded g u = true -> guarded G0 v = true -> guarded g (u ++ v) = true.
Proof.
  induction u as [|a u IH]; intros v g Hu Hv; simpl in *.
  - apply guarded_weaken; assumption.
  - destruct (guard_next g a); [|discriminate]. apply IH; assumption.
Qed.

Lemma guarded_no_call : forall w g,
  guarded g w = true -> has_deref_call w = false.
Proof.
  induction w as [|a w IH]; intros g H; [reflexivity|].
  simpl in H. destruct (guard_next g a) as [g'|] eqn:E; [|discriminate].
  destruct a; simpl; try (apply (IH _ H)).
  injection E as <-.
  destruct w as [|b w]; [reflexivity|].
  destruct b; try (apply (IH _ H)); try discriminate.
  destruct w as [|c w]; [reflexivity|].
  destruct c; try (apply (IH _ H)); try discriminate.
Qed.

Ltac invert_yield :=
  repeat match goal with
  | H : yield_seq (_ :: _) _ |- _ => inversion H; subst; clear H
  | H : yield_seq [] _ |- _ => inversion H; subst; clear H
  end;
  unfold yield_ok in *; subst; rewrite ?app_nil_r.

Ltac solve_guarded :=
  repeat first
    [ assumption
    | reflexivity
    | apply guarded_app ].

Lemma deref_form_app w u :
  deref_form w -> guarded G0 u = true -> deref_form (w ++ u).
Proof.
  intros (l & r & Hl & -> & Hr) Hu. exists l, (r ++ u). split; [assumption|].
  split.
  - simpl. rewrite <- app_assoc. reflexivity.
  - apply guarded_app; assumption.
Qed.

Lemma production_yield pr w :
  In pr grammar -> yield_seq (prod pr) w -> yield_ok (N (name pr)) w.
Proof.
  intros Hin. unfold grammar in Hin. simpl in Hin.
  repeat (destruct Hin as [<- | Hin]; [
    simpl prod; simpl name; intros HY; invert_yield;
    first
      [ solve [solve_guarded]
      | solve [simpl; auto 6]
      | solve [left; assumption]
      | solve [right; assumption]
      | idtac ] | ]); [ | | | contradiction ].
  - (* deref_expr *)
    rewrite app_assoc. apply deref_form_app; [|assumption].
    apply deref_form_app; assumption.
  - (* current_function_invocation *)
    match goal with H : In _ lp_forms |- _ =>
      simpl in H; repeat (destruct H as [<- | H]); try contradiction;
      reflexivity end.
  - (* deref_function_invocation *)
    match goal with H : In ?l lp_forms |- _ => exists l end.
    eexists. split; [assumption|]. split; [reflexivity|].
    solve_guarded.
Qed.

Lemma derives_yield :
  (forall X w v, derives X w v -> yield_ok X (map type w)) /\
  (forall Xs w vs, derives_seq Xs w vs -> yield_seq Xs (map type w)).
Proof.
  apply derives_mutind.
  - intros; reflexivity.
  - intros pr w vs v Hin _ IH _. apply production_yield; assumption.
  - constructor.
  - intros. rewrite map_app. constructor; assumption.
Qed.

(** In the words of [path_arg], a deref invocation starts at the first
    token or nowhere. *)
Lemma path_arg_deref_first toks v t w :
  derives (N path_arg) toks v ->
  map type toks = t :: w ->
  has_deref_call w = false.
Proof.
  intros D E. apply (proj1 derives_yield) in D. rewrite E in D.
  destruct D as [G | (l & r & Hl & Hw & Hr)].
  - simpl in G. destruct (guard_next G0 t); [|discriminate].
    eapply guarded_no_call; eassumption.
  - injection Hw as -> ->.
    pose proof (guarded_no_call _ _ Hr) as Q.
    simpl in Hl. repeat (destruct Hl as [<- | Hl]); try contradiction;
      simpl; try assumption;
      destruct r as [|[] ?]; simpl in *; try assumption; try reflexivity;
      discriminate.
Qed.

(** ** Scanning a path of node identifiers *)

Lemma match_at_ident_start c s v rest :
  is_ident_start c = true ->
  span is_ident_char s = (v, rest) ->
  match_at (String c s) = Some (IDENTIFIER, String c v, rest).
Proof.
  intros H E.
  destruct c as [[] [] [] [] [] [] [] []]; try discriminate H;
    unfold match_at; simpl; rewrite E; reflexivity.
Qed.

Lemma span_ident s rest :
  all_chars is_ident_char s = true ->
  match rest with
  | EmptyString => True
  | String c _ => is_ident_char c = false
  end ->
  span is_ident_char (s +++ rest) = (s, rest).
Proof.
  induction s as [|c s IH]; simpl; intros H B.
  - destruct rest as [|c r]; [reflexivity|]. simpl in *. rewrite B. reflexivity.
  - apply andb_true_iff in H. destruct H as [-> H]. rewrite IH; auto.
Qed.

Lemma scan_ident n rest pos :
  is_identifier n = true ->
  match rest with
  | EmptyString => True
  | String c _ => is_ident_char c = false
  end ->
  scan_from (n +++ rest) pos =
  let '(toks, err) := scan_from rest (pos + String.length n) in
  (ident_tok n pos :: toks, err).
Proof.
  intros H B. destruct n as [|c n]; [discriminate|].
  simpl in H. apply andb_true_iff in H. destruct H as [Hc Hn].
  rewrite scan_from_eq. simpl append.
  rewrite (match_at_ident_start _ _ _ _ Hc (span_ident _ _ Hn B)).
  reflexivity.
Qed.

Lemma scan_slash rest pos :
  scan_from (String "/" rest) pos =
  let '(toks, err) := scan_from rest (pos + 1) in
  (mkTok SLASH "/" 1 pos :: toks, err).
Proof. rewrite scan_from_eq. reflexivity. Qed.

Lemma scan_colon rest pos :
  scan_from (String ":" rest) pos =
  let '(toks, err) := scan_from rest (pos + 1) in
  (mkTok COLON ":" 1 pos :: toks, err).
Proof. rewrite scan_from_eq. reflexivity. Qed.

Lemma scan_left_parenthesis rest pos :
  scan_from (String "(" rest) pos =
  let '(toks, err) := scan_from rest (pos + 1) in
  (mkTok LEFT_PARENTHESIS "(" 1 pos :: toks, err).
Proof. rewrite scan_from_eq. reflexivity. Qed.

Lemma scan_right_parenthesis rest pos :
  scan_from (String ")" rest) pos =
  let '(toks, err) := scan_from rest (pos + 1) in
  (mkTok RIGHT_PARENTHESIS ")" 1 pos :: toks, err).
Proof. rewrite scan_from_eq. reflexivity. Qed.

Lemma scan_dots rest pos :
  scan_from (String "." (String "." rest)) pos =
  let '(toks, err) := scan_from rest (pos + 2) in
  (mkTok DOTS ".." 1 pos :: toks, err).
Proof. rewrite scan_from_eq. reflexivity. Qed.

Lemma boundary_weaken rest :
  boundary rest ->
  match rest with
  | EmptyString => True
  | String c _ => is_ident_char c = false
  end.
Proof. destruct rest; simpl; tauto. Qed.

Lemma scan_id id rest pos :
  valid_id id = true -> boundary rest ->
  scan_from (id_text id +++ rest) pos =
  let '(toks, err) := scan_from rest (pos + String.length (id_text id)) in
  (id_tokens id pos ++ toks, err).
Proof.
  intros V B. pose proof (boundary_weaken _ B) as B'.
  destruct id as [n|p n]; simpl in *.
  - rewrite (scan_ident _ _ _ V B').
    destruct (scan_from rest _); reflexivity.
  - apply andb_true_iff in V. destruct V as [Vp Vn].
    rewrite append_assoc, (scan_ident p _ _ Vp); [|reflexivity].
    simpl append. rewrite scan_colon, (scan_ident n _ _ Vn B').
    rewrite !length_append. simpl String.length.
    replace (pos + (String.length p + S (String.length n)))
      with (pos + String.length p + 1 + String.length n) by lia.
    destruct (scan_from rest _); reflexivity.
Qed.

Lemma absolute_text_boundary ids rest :
  boundary rest -> boundary (absolute_text ids +++ rest).
Proof.
  destruct ids; simpl; auto. intros _. split; [reflexivity|discriminate].
Qed.

Lemma scan_absolute_tail : forall ids rest pos,
  forallb valid_id ids = true -> boundary rest ->
  scan_from (absolute_text ids +++ rest) pos =
  let '(toks, err) := scan_from rest (pos + String.length (absolute_text ids)) in
  (absolute_tokens ids pos ++ toks, err).
Proof.
  induction ids as [|id ids IH]; intros rest pos V B; simpl in *.
  - rewrite Nat.add_0_r. destruct (scan_from rest pos); reflexivity.
  - apply andb_true_iff in V. destruct V as [Vi V].
    rewrite scan_slash, append_assoc.
    rewrite (scan_id _ _ _ Vi (absolute_text_boundary ids rest B)), (IH _ _ V B).
    rewrite length_append.
    replace (pos + 1 + String.length (id_text id) + String.length (absolute_text ids))
      with (pos + S (String.length (id_text id) + String.length (absolute_text ids)))
      by lia.
    destruct (scan_from rest _). rewrite <- app_assoc. reflexivity.
Qed.

Lemma scan_absolute ids pos :
  forallb valid_id ids = true ->
  scan_from (absolute_text ids) pos = (absolute_tokens ids pos, None).
Proof.
  intros V. rewrite <- (append_nil_r (absolute_text ids)).
  rewrite (scan_absolute_tail ids EmptyString pos V I), scan_from_eq.
  rewrite app_nil_r. reflexivity.
Qed.

Lemma scan_dots_text : forall n rest pos,
  scan_from (dots_text n +++ rest) pos =
  let '(toks, err) := scan_from rest (pos + 3 * n) in
  (dots_tokens n pos ++ toks, err).
Proof.
  induction n as [|n IH]; intros rest pos; simpl dots_text.
  - simpl. rewrite Nat.add_0_r. destruct (scan_from rest pos); reflexivity.
  - simpl append. rewrite scan_dots, scan_slash.
    replace (pos + 2 + 1) with (pos + 3) by lia. rewrite IH.
    replace (pos + 3 + 3 * n) with (pos + 3 * S n) by lia.
    destruct (scan_from rest _). reflexivity.
Qed.

Lemma length_dots_text n : String.length (dots_text n) = 3 * n.
Proof. induction n; simpl in *; lia. Qed.

Lemma scan_rel r rest pos :
  rel_valid r = true -> boundary rest ->
  scan_from (rel_text r +++ rest) pos =
  let '(toks, err) := scan_from rest (pos + String.length (rel_text r)) in
  (rel_tokens r pos ++ toks, err).
Proof.
  intros V B. unfold rel_valid in V. apply andb_true_iff in V.
  destruct V as [V1 V2]. unfold rel_text, rel_tokens.
  rewrite !append_assoc, scan_dots_text.
  rewrite (scan_id _ _ _ V1 (absolute_text_boundary _ rest B)).
  rewrite (scan_absolute_tail _ _ _ V2 B).
  rewrite !length_append, length_dots_text.
  replace (pos + 3 * ups r + String.length (id_text (first r)) +
           String.length (absolute_text (others r)))
    with (pos + (3 * ups r + (String.length (id_text (first r)) +
                              String.length (absolute_text (others r)))))
    by lia.
  destruct (scan_from rest _). rewrite <- !app_assoc. reflexivity.
Qed.

(** ** Running the engine on a path of node identifiers *)

Lemma steps_add pending n m c :
  steps pending (n + m) c =
  match steps pending n c with
  | inl c' => steps pending m c'
  | inr r => inr r
  end.
Proof.
  revert c; induction n as [|n IH]; intros c; simpl; [reflexivity|].
  destruct (step pending c); [apply IH|reflexivity].
Qed.

Lemma reaches_refl pending c : reaches pending c c.
Proof. exists 0. reflexivity. Qed.

Lemma reaches_trans pending c1 c2 c3 :
  reaches pending c1 c2 -> reaches pending c2 c3 -> reaches pending c1 c3.
Proof.
  intros [n H1] [m H2]. exists (n + m). rewrite steps_add, H1. exact H2.
Qed.

Lemma steps_run pending n : forall c,
  match steps pending n c with
  | inl c' => forall fuel, run pending (n + fuel) c = run pending fuel c'
  | inr r => run pending n c = Some r
  end.
Proof.
  induction n as [|n IH]; intros c; simpl; [reflexivity|].
  destruct (step pending c) as [c'|r]; [apply IH|reflexivity].
Qed.

Lemma reaches_ends pending c c' r :
  reaches pending c c' -> ends pending c' r -> ends pending c r.
Proof.
  intros [n H] [fuel Hr]. exists (n + fuel).
  pose proof (steps_run pending n c) as S. rewrite H in S. rewrite S. exact Hr.
Qed.

Lemma steps_ends pending n c r :
  steps pending n c = inr r -> ends pending c r.
Proof.
  intros H. pose proof (steps_run pending n c) as S. rewrite H in S.
  exists n. exact S.
Qed.

(** A run that ends gives the result of [parse]: the fuel of [parse] is
    enough. *)
Lemma ends_parse source r :
  ends (snd (scan source)) (mkConfig [0] [] (fst (scan source))) r ->
  parse source = Some r.
Proof.
  intros [fuel H]. destruct (parse_final source) as (r' & Hp & _).
  rewrite Hp. f_equal. unfold parse, yacc_parse in Hp.
  destruct (scan source) as [toks pending]. simpl in H.
  set (f := (max_reductions + 1) * (length toks + 1)) in *.
  pose proof (run_more pending _ (fuel + f) _ _ H ltac:(lia)) as H1.
  pose proof (run_more pending _ (fuel + f) _ _ Hp ltac:(lia)) as H2.
  congruence.
Qed.

Lemma ident_type_cases n :
  dict_get functions n IDENTIFIER = IDENTIFIER \/
  dict_get functions n IDENTIFIER = CURRENT_KEYWORD \/
  dict_get functions n IDENTIFIER = DEREF_KEYWORD.
Proof.
  unfold functions. cbn [dict_get].
  destruct (String.eqb "current" n); auto. destruct (String.eqb "deref" n); auto.
Qed.

Lemma path_end_follow pending rest :
  path_end pending rest -> path_follow pending rest.
Proof. destruct rest; simpl; auto. Qed.

Lemma starts_with_more ks ks' rest :
  starts_with ks rest -> (forall k, In k ks -> In k ks') -> starts_with ks' rest.
Proof. destruct rest; simpl; auto. Qed.

Lemma ident_type_not_deref w :
  w <> "deref"%string ->
  dict_get functions w IDENTIFIER = IDENTIFIER \/
  dict_get functions w IDENTIFIER = CURRENT_KEYWORD.
Proof.
  intros H. unfold functions. cbn [dict_get].
  destruct (String.eqb "current" w); auto.
  destruct (String.eqb_spec "deref" w); [congruence|auto].
Qed.

Lemma absolute_tokens_follow pending ids pos tail :
  path_end pending tail ->
  path_follow pending (absolute_tokens ids pos ++ tail).
Proof.
  destruct ids; simpl; [apply path_end_follow|]. intros _. left. reflexivity.
Qed.

Ltac split_follow pending rest H :=
  destruct rest as [|[? ? ? ?] ?]; simpl in H;
  [subst pending | first [destruct H as [H | H] | idtac]; subst].

(** A node identifier after a slash (state 10) or at the start of a
    relative path (state 9) is read and reduced. *)
Lemma node_identifier_steps pending X Y sts vals id pos rest :
  In (X, Y) [(10, 26); (9, 20)] ->
  path_follow pending rest ->
  reaches pending
    (mkConfig (X :: sts) vals (id_tokens id pos ++ rest))
    (mkConfig (Y :: X :: sts) (id_value id :: vals) rest).
Proof.
  intros HX F. simpl in HX.
  destruct HX as [[= <- <-] | [[= <- <-] | []]];
    destruct id as [n|p n]; unfold id_tokens, ident_tok;
    split_follow pending rest F.
  all: try (destruct (ident_type_cases n) as [-> | [-> | ->]];
            exists 3; reflexivity).
  all: destruct (ident_type_cases p) as [-> | [-> | ->]];
       destruct (ident_type_cases n) as [-> | [-> | ->]];
       exists 7; reflexivity.
Qed.

(** The first segment of an absolute path, at the start of the path
    (state 0) or after the first node identifier of a relative path
    (state 35). *)
Lemma first_segment_steps pending X sts vals id pos rest :
  In X [0; 35] ->
  path_follow pending rest ->
  reaches pending
    (mkConfig (X :: sts) vals
              (mkTok SLASH "/" 1 pos :: id_tokens id (pos + 1) ++ rest))
    (mkConfig (17 :: 8 :: X :: sts) (PyList [] :: PyList [id_value id] :: vals)
              rest).
Proof.
  intros HX F.
  apply reaches_trans with
    (mkConfig (10 :: X :: sts) (PyStr "/" :: vals) (id_tokens id (pos + 1) ++ rest)).
  { simpl in HX. destruct HX as [<- | [<- | []]]; exists 1; reflexivity. }
  eapply reaches_trans.
  { apply node_identifier_steps with (Y := 26); [simpl; auto | exact F]. }
  simpl in HX. destruct HX as [<- | [<- | []]];
    split_follow pending rest F; exists 3; reflexivity.
Qed.

(** A further segment. *)
Lemma next_segment_steps pending sts vals acc v1 id pos rest :
  path_follow pending rest ->
  reaches pending
    (mkConfig (17 :: 8 :: sts) (PyList acc :: PyList [v1] :: vals)
              (mkTok SLASH "/" 1 pos :: id_tokens id (pos + 1) ++ rest))
    (mkConfig (17 :: 8 :: sts)
              (PyList (acc ++ [id_value id]) :: PyList [v1] :: vals) rest).
Proof.
  intros F.
  apply reaches_trans with
    (mkConfig (10 :: 17 :: 8 :: sts)
              (PyStr "/" :: PyList acc :: PyList [v1] :: vals)
              (id_tokens id (pos + 1) ++ rest)).
  { exists 1; reflexivity. }
  eapply reaches_trans.
  { apply node_identifier_steps with (Y := 26); [simpl; auto | exact F]. }
  split_follow pending rest F; exists 3; reflexivity.
Qed.

Lemma segments_steps pending : forall ids sts vals acc v1 pos tail,
  path_end pending tail ->
  reaches pending
    (mkConfig (17 :: 8 :: sts) (PyList acc :: PyList [v1] :: vals)
              (absolute_tokens ids pos ++ tail))
    (mkConfig (17 :: 8 :: sts)
              (PyList (acc ++ map id_value ids) :: PyList [v1] :: vals) tail).
Proof.
  induction ids as [|id ids IH]; intros sts vals acc v1 pos tail E; simpl.
  - rewrite app_nil_r. apply reaches_refl.
  - rewrite <- app_assoc. eapply reaches_trans.
    + apply next_segment_steps. apply absolute_tokens_follow. exact E.
    + replace (acc ++ id_value id :: map id_value ids)
        with ((acc ++ [id_value id]) ++ map id_value ids)
        by (rewrite <- app_assoc; reflexivity).
      apply IH. exact E.
Qed.

(** ** Running the engine on a relative path *)

Ltac split_start rest H :=
  destruct rest as [|[? ? ? ?] ?]; simpl in H; [contradiction|];
  repeat (destruct H as [H | H]; [subst | ]); try contradiction.

(** The empty sequence of [../] at the start of a relative path: at the
    start of the input (state 0), after [deref(] (state 14) and after
    [deref(...)/] (state 11). *)
Lemma start_relative_steps pending X sts vals rest :
  (X = 0 /\ starts_with [DOTS; IDENTIFIER; CURRENT_KEYWORD] rest) \/
  (In X [14; 11] /\
   starts_with [DOTS; IDENTIFIER; CURRENT_KEYWORD; DEREF_KEYWORD] rest) ->
  reaches pending
    (mkConfig (X :: sts) vals rest)
    (mkConfig (9 :: X :: sts) (PyInt 0 :: vals) rest).
Proof.
  intros [[-> H] | [HX H]].
  - split_start rest H; exists 1; reflexivity.
  - simpl in HX. destruct HX as [<- | [<- | []]];
      split_start rest H; exists 1; reflexivity.
Qed.

Lemma dots_steps pending X : forall n sts vals k pos rest,
  In X [0; 14; 11] ->
  starts_with [IDENTIFIER; CURRENT_KEYWORD; DEREF_KEYWORD] rest ->
  reaches pending
    (mkConfig (9 :: X :: sts) (PyInt k :: vals) (dots_tokens n pos ++ rest))
    (mkConfig (9 :: X :: sts) (PyInt (k + Z.of_nat n) :: vals) rest).
Proof.
  induction n as [|n IH]; intros sts vals k pos rest HX H.
  - simpl. rewrite Z.add_0_r. apply reaches_refl.
  - replace (k + Z.of_nat (S n))%Z with ((k + 1) + Z.of_nat n)%Z by lia.
    apply reaches_trans with
      (mkConfig (9 :: X :: sts) (PyInt (k + 1) :: vals)
                (dots_tokens n (pos + 3) ++ rest)); [|apply IH; assumption].
    simpl dots_tokens.
    assert (HS : starts_with [DOTS; IDENTIFIER; CURRENT_KEYWORD; DEREF_KEYWORD]
                   (dots_tokens n (pos + 3) ++ rest)).
    { destruct n; simpl; [|auto].
      destruct rest; simpl in *; [contradiction|tauto]. }
    simpl app. remember (dots_tokens n (pos + 3) ++ rest) as R eqn:ER.
    clear ER. simpl in HX. destruct HX as [<- | [<- | [<- | []]]];
      split_start R HS; exists 3; reflexivity.
Qed.

Lemma id_tokens_start id pos rest :
  starts_with [IDENTIFIER; CURRENT_KEYWORD; DEREF_KEYWORD] (id_tokens id pos ++ rest).
Proof.
  destruct id as [n|p n]; unfold id_tokens, ident_tok;
    cbn [app starts_with type];
    [destruct (ident_type_cases n) as [-> | [-> | ->]]
    |destruct (ident_type_cases p) as [-> | [-> | ->]]]; simpl; auto.
Qed.

(** The end of a relative path: the reductions to [descendant_path] and
    [relative_path], after the first node identifier alone or after the
    segments that follow it. *)
Lemma finish_relative_steps pending X Y sts vals n v1 ids pos tail :
  In (X, Y) [(0, 6); (14, 30); (11, 27)] ->
  path_end pending tail ->
  reaches pending
    (mkConfig (20 :: 9 :: X :: sts) (v1 :: PyInt n :: vals)
              (absolute_tokens ids pos ++ tail))
    (mkConfig (Y :: X :: sts)
              (PyTuple [PyInt n; PyList (v1 :: map id_value ids)] :: vals) tail).
Proof.
  intros HX E. destruct ids as [|id ids].
  - simpl in *.
    destruct HX as [[= <- <-] | [[= <- <-] | [[= <- <-] | []]]];
      split_follow pending tail E; exists 2; reflexivity.
  - simpl absolute_tokens. rewrite <- !app_comm_cons, <- app_assoc.
    apply reaches_trans with
      (mkConfig (35 :: 20 :: 9 :: X :: sts) (PyList [] :: v1 :: PyInt n :: vals)
         (mkTok SLASH "/" 1 pos :: id_tokens id (pos + 1) ++
          absolute_tokens ids (pos + 1 + String.length (id_text id)) ++ tail)).
    { exists 1; reflexivity. }
    eapply reaches_trans.
    { apply first_segment_steps with (X := 35); [simpl; auto|].
      apply absolute_tokens_follow. exact E. }
    eapply reaches_trans; [apply segments_steps; exact E|].
    simpl in HX.
    destruct HX as [[= <- <-] | [[= <- <-] | [[= <- <-] | []]]];
      split_follow pending tail E; exists 3; reflexivity.
Qed.

(** A relative path is read and reduced to [relative_path], with the count
    of its [../] and the list of its node identifiers as value.  At the
    start of the input a path without [../] must not begin with the keyword
    [deref], which state 0 shifts. *)
Lemma relative_steps pending X Y sts vals r pos tail :
  In (X, Y) [(0, 6); (14, 30); (11, 27)] ->
  (X = 0 -> ups r = 0 -> first_word (first r) <> "deref"%string) ->
  path_end pending tail ->
  reaches pending
    (mkConfig (X :: sts) vals (rel_tokens r pos ++ tail))
    (mkConfig (Y :: X :: sts) (rel_value r :: vals) tail).
Proof.
  intros HX HD E. destruct r as [n id ids]. unfold rel_tokens, rel_value, rel_ids.
  simpl ups in *; simpl first in *; simpl others.
  rewrite <- !app_assoc.
  eapply reaches_trans.
  { apply start_relative_steps.
    simpl in HX. destruct HX as [[= <- <-] | HX].
    - left. split; [reflexivity|]. destruct n as [|n]; [|simpl; auto].
      specialize (HD eq_refl eq_refl). simpl dots_tokens.
      destruct id as [w|w ?]; unfold id_tokens, ident_tok;
        cbn [app starts_with type first_word] in *;
        destruct (ident_type_not_deref w HD) as [-> | ->]; simpl; auto.
    - right. split.
      + destruct HX as [[= <- <-] | [[= <- <-] | []]]; simpl; auto.
      + destruct n as [|n]; [|simpl; auto].
        apply starts_with_more with (ks := [IDENTIFIER; CURRENT_KEYWORD; DEREF_KEYWORD]);
          [apply id_tokens_start | simpl; tauto]. }
  eapply reaches_trans.
  { apply dots_steps; [|apply id_tokens_start].
    simpl in HX. destruct HX as [[= <- <-] | [[= <- <-] | [[= <- <-] | []]]];
      simpl; auto. }
  eapply reaches_trans.
  { apply node_identifier_steps with (X := 9) (Y := 20); [simpl; auto|].
    apply absolute_tokens_follow. exact E. }
  simpl Z.add. apply finish_relative_steps; assumption.
Qed.

(** ** Relative paths and deref expressions of node identifiers *)

Lemma rel_tokens_start r pos tail :
  starts_with [DOTS; IDENTIFIER; CURRENT_KEYWORD; DEREF_KEYWORD]
              (rel_tokens r pos ++ tail).
Proof.
  unfold rel_tokens. destruct (ups r) as [|n]; [|simpl; auto].
  rewrite <- !app_assoc.
  apply starts_with_more with (ks := [IDENTIFIER; CURRENT_KEYWORD; DEREF_KEYWORD]);
    [apply id_tokens_start | simpl; tauto].
Qed.

Lemma scan_rel_end r pos :
  rel_valid r = true ->
  scan_from (rel_text r) pos = (rel_tokens r pos, None).
Proof.
  intros V. rewrite <- (append_nil_r (rel_text r)).
  rewrite (scan_rel r EmptyString pos V I), scan_from_eq, app_nil_r.
  reflexivity.
Qed.

(** The source [deref(r1)/r2]. *)
Definition deref_text (r1 r2 : RelPath) : string :=
  "deref(" +++ rel_text r1 +++ ")/" +++ rel_text r2.

Lemma scan_deref r1 r2 :
  rel_valid r1 = true -> rel_valid r2 = true ->
  exists p1 p2 p3 p4,
    scan (deref_text r1 r2) =
    (mkTok DEREF_KEYWORD "deref" 1 1 :: mkTok LEFT_PARENTHESIS "(" 1 6 ::
     rel_tokens r1 p1 ++
     mkTok RIGHT_PARENTHESIS ")" 1 p2 :: mkTok SLASH "/" 1 p3 ::
     rel_tokens r2 p4, None).
Proof.
  intros V1 V2. unfold scan, deref_text.
  change ("deref(" +++ rel_text r1 +++ ")/" +++ rel_text r2)
    with ("deref" +++ String "(" (rel_text r1 +++ String ")" (String "/" (rel_text r2)))).
  rewrite scan_ident; [|reflexivity|reflexivity].
  rewrite scan_left_parenthesis.
  rewrite (scan_rel r1 _ _ V1); [|split; [reflexivity|discriminate]].
  rewrite scan_right_parenthesis, scan_slash, (scan_rel_end r2 _ V2).
  do 4 eexists. reflexivity.
Qed.

Lemma deref_open_steps pending v1 l1 p1 v2 l2 p2 rest :
  starts_with [DOTS; IDENTIFIER; CURRENT_KEYWORD; DEREF_KEYWORD] rest ->
  reaches pending
    (mkConfig [0] []
       (mkTok DEREF_KEYWORD v1 l1 p1 :: mkTok LEFT_PARENTHESIS v2 l2 p2 :: rest))
    (mkConfig [14; 7; 0] [PyStr "("; PyStr v1] rest).
Proof.
  intros H. split_start rest H; exists 3; reflexivity.
Qed.

Lemma deref_close_steps pending r v1 v2 v3 l3 p3 v4 l4 p4 rest :
  starts_with [DOTS; IDENTIFIER; CURRENT_KEYWORD; DEREF_KEYWORD] rest ->
  reaches pending
    (mkConfig [30; 14; 7; 0] [r; v2; v1]
       (mkTok RIGHT_PARENTHESIS v3 l3 p3 :: mkTok SLASH v4 l4 p4 :: rest))
    (mkConfig [11; 4; 0] [PyStr "/"; r] rest).
Proof.
  intros H. split_start rest H; exists 5; reflexivity.
Qed.

(** ** The properties of the specification *)

Open Scope string_scope.
Open Scope list_scope.

(** C1: for every absolute path [/id1/.../idn] of one or more node
    identifiers (each a name or [pfx:name]), [parse] returns the path
    argument with [up = -1], [dn] the list of the node identifiers in
    order, [derefup = 0] and [derefdn = None]. *)
Theorem absolute_path_parse (ids : list NodeId) :
  ids <> [] ->
  forallb valid_id ids = true ->
  parse (absolute_text ids) =
  Some (Returns (LeafrefPathArg (PyInt (-1)) (PyList (map id_value ids))
                                (PyInt 0) PyNone)).
Proof.
  intros Hne V. apply ends_parse. unfold scan.
  rewrite (scan_absolute ids 1 V). simpl fst; simpl snd.
  destruct ids as [|id ids]; [congruence|]. simpl absolute_tokens.
  rewrite <- (app_nil_r (absolute_tokens ids _)).
  eapply reaches_ends.
  { apply first_segment_steps with (X := 0); [simpl; auto|].
    apply absolute_tokens_follow. reflexivity. }
  eapply reaches_ends; [apply segments_steps; reflexivity|].
  apply steps_ends with (n := 4). reflexivity.
Qed.

Lemma absolute_path_parse_witness :
  [Plain "a"; Plain "b"; Plain "c"] <> [] /\
  forallb valid_id [Plain "a"; Plain "b"; Plain "c"] = true /\
  parse "/a/b/c" =
  Some (Returns (LeafrefPathArg (PyInt (-1))
                   (PyList [PyStr "a"; PyStr "b"; PyStr "c"]) (PyInt 0) PyNone)).
Proof.
  split; [discriminate|]. split; [reflexivity|].
  apply (absolute_path_parse [Plain "a"; Plain "b"; Plain "c"]);
    [discriminate | reflexivity].
Defined.

(** C2: a relative path whose first node identifier is the word [deref]
    is not parsed: in state 0 the parser shifts [DEREF_KEYWORD], as the
    start of a deref invocation, instead of reducing the empty sequence of
    [../] that a relative path begins with.  [parse] raises where the
    property asks for [up = 0]; the count itself is right on the paths
    that are parsed (see [relative_path_parse]). *)
Theorem relative_path_deref_first_rejected :
  action 0 (Some DEREF_KEYWORD) = Some (Shift 7) /\
  action 0 (Some IDENTIFIER) = Some (Reduce 23) /\
  parse "deref" = Some (Raises UnexpectedEnd) /\
  parse "deref/a" = Some (Raises (ParseError 1 6 "/")) /\
  parse "node" =
  Some (Returns (LeafrefPathArg (PyInt 0) (PyList [PyStr "node"]) (PyInt 0) PyNone)) /\
  parse "../deref" =
  Some (Returns (LeafrefPathArg (PyInt 1) (PyList [PyStr "deref"]) (PyInt 0) PyNone)).
Proof. repeat split; vm_compute; reflexivity. Qed.

(** C3: ["deref(../if:ref)/if:name"] parses to [up = 0],
    [dn = [(if, name)]], [derefup = 1], [derefdn = [(if, ref)]]; in
    general [p_deref_expr] and [p_path_arg] take [up] and [dn] from the
    relative path after the invocation and [derefup] and [derefdn] from the
    relative path between the parentheses. *)
Theorem deref_composition :
  parse "deref(../if:ref)/if:name" =
  Some (Returns (LeafrefPathArg
                   (PyInt 0) (PyList [PyTuple [PyStr "if"; PyStr "name"]])
                   (PyInt 1) (PyList [PyTuple [PyStr "if"; PyStr "ref"]]))) /\
  forall up dn derefup derefdn sep,
    (v <- p_deref_expr [PyTuple [derefup; derefdn]; sep; PyTuple [up; dn]] ;;
     p_path_arg [v]) =
    Some (LeafrefPathArg up dn derefup derefdn).
Proof. split; [vm_compute; reflexivity | reflexivity]. Qed.

(** C4: ["/a[b=current()/../c]"] parses to the one sequence
    [[a, Predicate]] with [literal = 'predicate'], [node_id = b], [up = 1]
    and [dn = [c]]; a segment is its node identifier followed by its
    predicates in the order they were written, each new predicate being
    added at the end of the list. *)
Theorem predicate_flattening :
  parse "/a[b=current()/../c]" =
  Some (Returns (LeafrefPathArg (PyInt (-1))
    (PyList [PyStr "a";
             LeafrefPathPredicate (PyStr "predicate") (PyStr "b") (PyInt 1)
                                  (PyList [PyStr "c"])])
    (PyInt 0) PyNone)) /\
  (forall slash id preds,
     p_absolute_path_segment [slash; id; PyList preds] = Some (PyList (id :: preds))) /\
  (forall preds node_id up dn,
     p_zero_or_more_lists
       [PyList preds; LeafrefPathPredicate (PyStr "predicate") node_id up dn] =
     Some (PyList (preds ++ [LeafrefPathPredicate (PyStr "predicate") node_id up dn]))) /\
  parse "/a[b=current()/c][d=current()/../e]/f" =
  Some (Returns (LeafrefPathArg (PyInt (-1))
    (PyList [PyStr "a";
             LeafrefPathPredicate (PyStr "predicate") (PyStr "b") (PyInt 0)
                                  (PyList [PyStr "c"]);
             LeafrefPathPredicate (PyStr "predicate") (PyStr "d") (PyInt 1)
                                  (PyList [PyStr "e"]);
             PyStr "f"])
    (PyInt 0) PyNone)).
Proof.
  split; [vm_compute; reflexivity|]. split; [reflexivity|].
  split; [reflexivity|]. vm_compute; reflexivity.
Qed.

(** C5, as stated, fails: the three inputs do not parse to one value. *)
Lemma whitespace_around_slash_counterexample :
  ~ (exists v, parse "../a/b" = Some (Returns v) /\
               parse ".. / a / b" = Some (Returns v) /\
               parse ".. /a/ b" = Some (Returns v)).
Proof.
  intros (v & _ & H & _). vm_compute in H. discriminate.
Qed.

(** C5, amended: whitespace around [/] is accepted where the grammar has
    [wsp_slash_wsp], that is after the deref invocation and inside the key
    expression of a predicate, and there it does not change the value; the
    [../] and the segments of the path itself are written without
    whitespace: ["../a/b"] parses, and [".. / a / b"] and [".. /a/ b"] raise
    a syntax error at the whitespace in column 3. *)
Theorem whitespace_around_slash :
  parse "../a/b" =
  Some (Returns (LeafrefPathArg (PyInt 1) (PyList [PyStr "a"; PyStr "b"])
                                (PyInt 0) PyNone)) /\
  parse ".. / a / b" = Some (Raises (ParseError 1 3 " ")) /\
  parse ".. /a/ b" = Some (Raises (ParseError 1 3 " ")) /\
  parse "/x[k=current() / .. / a / b]" = parse "/x[k=current()/../a/b]" /\
  parse "/x[k=current()/../a/b]" =
  Some (Returns (LeafrefPathArg (PyInt (-1))
    (PyList [PyStr "x";
             LeafrefPathPredicate (PyStr "predicate") (PyStr "k") (PyInt 1)
                                  (PyList [PyStr "a"; PyStr "b"])])
    (PyInt 0) PyNone)) /\
  parse "deref(../r) / a" = parse "deref(../r)/a" /\
  parse "deref(../r)/a" =
  Some (Returns (LeafrefPathArg (PyInt 0) (PyList [PyStr "a"])
                                (PyInt 1) (PyList [PyStr "r"]))).
Proof. repeat split; vm_compute; reflexivity. Qed.

(** C6: ["current/deref"] parses with [dn = [current, deref]], and the
    lexer gives the keyword types to the exact words only; but at the start
    of a relative path the word [deref] is not taken as an identifier:
    ["deref/current"] raises a syntax error at the slash. *)
Theorem reserved_words_as_identifiers :
  parse "current/deref" =
  Some (Returns (LeafrefPathArg (PyInt 0)
                   (PyList [PyStr "current"; PyStr "deref"]) (PyInt 0) PyNone)) /\
  map type (fst (scan "current currently deref derefs x.deref")) =
  [CURRENT_KEYWORD; WSP; IDENTIFIER; WSP; DEREF_KEYWORD; WSP; IDENTIFIER; WSP;
   IDENTIFIER] /\
  parse "/deref/current" =
  Some (Returns (LeafrefPathArg (PyInt (-1))
                   (PyList [PyStr "deref"; PyStr "current"]) (PyInt 0) PyNone)) /\
  parse "deref/current" = Some (Raises (ParseError 1 6 "/")).
Proof. repeat split; vm_compute; reflexivity. Qed.

(** C7: a deref invocation ([deref] followed by an opening parenthesis,
    with or without whitespace between them) that starts after the first
    token of the input makes [parse] raise an error.  An invocation inside
    the key expression of a predicate, or inside an absolute path, starts
    after the first token. *)
Theorem deref_only_at_start (source : string) (t : toktype) (w : list toktype) :
  map type (fst (scan source)) = t :: w ->
  has_deref_call w = true ->
  exists e, parse source = Some (Raises e).
Proof.
  intros E H. destruct (parse_final source) as (r & Hp & F).
  destruct F as [v _ D| | |]; eauto.
  pose proof (path_arg_deref_first _ _ _ _ D E). congruence.
Qed.

Lemma deref_only_at_start_witness :
  map type (fst (scan "/a[b=deref(../x)/c]")) =
  SLASH :: [IDENTIFIER; LEFT_SQUARE_BRACKET; IDENTIFIER; EQUAL; DEREF_KEYWORD;
            LEFT_PARENTHESIS; DOTS; SLASH; IDENTIFIER; RIGHT_PARENTHESIS; SLASH;
            IDENTIFIER; RIGHT_SQUARE_BRACKET] /\
  exists e, parse "/a[b=deref(../x)/c]" = Some (Raises e).
Proof.
  split; [reflexivity|].
  apply (deref_only_at_start "/a[b=deref(../x)/c]" SLASH
           [IDENTIFIER; LEFT_SQUARE_BRACKET; IDENTIFIER; EQUAL; DEREF_KEYWORD;
            LEFT_PARENTHESIS; DOTS; SLASH; IDENTIFIER; RIGHT_PARENTHESIS; SLASH;
            IDENTIFIER; RIGHT_SQUARE_BRACKET]); reflexivity.
Defined.

(** C8: on the tokens of a source that the lexer reads to its end, [parse]
    returns a value only together with a derivation of the whole token
    sequence from [path_arg]; otherwise it raises the exception of
    [p_error], either with the line, column and text of the first token for
    which the state reached on the tokens before it has no action, or for
    the end of the input.  In particular ["deref()"] raises at the closing
    parenthesis. *)
Theorem syntax_error_reporting :
  (forall source toks,
     scan source = (toks, None) ->
     exists r, parse source = Some r /\
       match r with
       | Returns v => derives (N path_arg) toks v
       | Raises e =>
           (exists w t rest s sts vals,
              toks = w ++ t :: rest /\
              stack_inv (s :: sts) vals w /\
              action s (Some (type t)) = None /\
              e = ParseError (lineno t) (lexpos t) (value t)) \/
           (exists s sts vals,
              stack_inv (s :: sts) vals toks /\
              action s None = None /\
              e = UnexpectedEnd)
       end) /\
  parse "deref()" = Some (Raises (ParseError 1 7 ")")).
Proof.
  split; [|vm_compute; reflexivity].
  intros source toks Hs. destruct (parse_final source) as (r & Hp & F).
  rewrite Hs in F. simpl in F. exists r. split; [assumption|].
  destruct F as [v _ D | e s sts vals Hpend _ | w t rest s sts vals Hw Hi Ha
                | s sts vals _ Hi Ha].
  - assumption.
  - discriminate.
  - left. exists w, t, rest, s, sts, vals. auto.
  - right. exists s, sts, vals. auto.
Qed.

Lemma syntax_error_reporting_witness :
  scan "deref()" =
  ([mkTok DEREF_KEYWORD "deref" 1 1; mkTok LEFT_PARENTHESIS "(" 1 6;
    mkTok RIGHT_PARENTHESIS ")" 1 7], None) /\
  exists r, parse "deref()" = Some r /\
    match r with
    | Returns v =>
        derives (N path_arg)
          [mkTok DEREF_KEYWORD "deref" 1 1; mkTok LEFT_PARENTHESIS "(" 1 6;
           mkTok RIGHT_PARENTHESIS ")" 1 7] v
    | Raises e =>
        (exists w t rest s sts vals,
           [mkTok DEREF_KEYWORD "deref" 1 1; mkTok LEFT_PARENTHESIS "(" 1 6;
            mkTok RIGHT_PARENTHESIS ")" 1 7] = w ++ t :: rest /\
           stack_inv (s :: sts) vals w /\
           action s (Some (type t)) = None /\
           e = ParseError (lineno t) (lexpos t) (value t)) \/
        (exists s sts vals,
           stack_inv (s :: sts) vals
             [mkTok DEREF_KEYWORD "deref" 1 1; mkTok LEFT_PARENTHESIS "(" 1 6;
              mkTok RIGHT_PARENTHESIS ")" 1 7] /\
           action s None = None /\
           e = UnexpectedEnd)
    end.
Proof.
  split; [reflexivity|].
  apply (proj1 syntax_error_reporting "deref()"). reflexivity.
Defined.

(** C9: when [scan] ends with an error, the error is [LexError] with line 1
    and the column of the first character that no token covers, at which no
    pattern matches.  The lexer raises it at column 3 of ["a ! b"], after
    the tokens [a] and the whitespace; ["//a"] has no lexical error and
    [parse] raises at its second slash, in column 2.  ([parse] reads the
    tokens one at a time: on ["a ! b"] it stops at the whitespace in column
    2 and never asks the lexer for the token after it; on ["a!b"] it raises
    the error of the lexer.) *)
Theorem lex_error_position :
  (forall source toks e,
     scan source = (toks, Some e) ->
     exists unread,
       source = text_of toks +++ unread /\
       unread <> EmptyString /\
       match_at unread = None /\
       e = LexError 1 (1 + String.length (text_of toks))) /\
  scan "a ! b" =
  ([mkTok IDENTIFIER "a" 1 1; mkTok WSP " " 1 2], Some (LexError 1 3)) /\
  scan "//a" =
  ([mkTok SLASH "/" 1 1; mkTok SLASH "/" 1 2; mkTok IDENTIFIER "a" 1 3], None) /\
  parse "//a" = Some (Raises (ParseError 1 2 "/")) /\
  parse "a ! b" = Some (Raises (ParseError 1 2 " ")) /\
  parse "a!b" = Some (Raises (LexError 1 2)).
Proof.
  split; [|repeat split; vm_compute; reflexivity].
  intros source toks e H.
  destruct (scan_from_spec _ source 1 toks (Some e) (Nat.le_refl _) H)
    as (_ & _ & unread & Hu & -> & Hn & Hm).
  exists unread. auto.
Qed.

Lemma lex_error_position_witness :
  scan "a ! b" =
  ([mkTok IDENTIFIER "a" 1 1; mkTok WSP " " 1 2], Some (LexError 1 3)) /\
  exists unread,
    "a ! b" = text_of [mkTok IDENTIFIER "a" 1 1; mkTok WSP " " 1 2] +++ unread /\
    unread <> EmptyString /\
    match_at unread = None /\
    LexError 1 3 =
    LexError 1 (1 + String.length (text_of [mkTok IDENTIFIER "a" 1 1; mkTok WSP " " 1 2])).
Proof.
  split; [reflexivity|].
  apply (proj1 lex_error_position "a ! b"). reflexivity.
Defined.

(** C10: when [scan] reads a source to its end, the values of the tokens,
    concatenated in order, are the source; no token is empty; and every
    token starts at column 1 plus the length of the tokens before it. *)
Theorem scan_lossless (source : string) (toks : list LeafrefPathTok) :
  scan source = (toks, None) ->
  text_of toks = source /\
  Forall (fun t => value t <> EmptyString) toks /\
  forall before t after,
    toks = before ++ t :: after ->
    lexpos t = 1 + String.length (text_of before).
Proof.
  intros H.
  destruct (scan_from_spec _ source 1 toks None (Nat.le_refl _) H)
    as (Hc & Hf & unread & Hu & ->).
  rewrite append_nil_r in Hu. split; [auto|]. split.
  - eapply Forall_impl; [|exact Hf]. intros t [Ht _]. exact Ht.
  - intros before t after ->. apply (columns_from_app _ _ _ _ Hc).
Qed.

Lemma scan_lossless_witness :
  scan "../a/b" =
  ([mkTok DOTS ".." 1 1; mkTok SLASH "/" 1 3; mkTok IDENTIFIER "a" 1 4;
    mkTok SLASH "/" 1 5; mkTok IDENTIFIER "b" 1 6], None) /\
  text_of [mkTok DOTS ".." 1 1; mkTok SLASH "/" 1 3; mkTok IDENTIFIER "a" 1 4;
           mkTok SLASH "/" 1 5; mkTok IDENTIFIER "b" 1 6] = "../a/b".
Proof.
  split; [reflexivity|].
  apply (scan_lossless "../a/b"). reflexivity.
Defined.

(** ** Further properties of the code *)

(** X1: a relative path of [n] times [../] followed by one or more node
    identifiers separated by slashes parses to [up = n], [dn] the node
    identifiers in order, [derefup = 0] and [derefdn = None], provided a
    path without [../] does not start with the word [deref]. *)
Theorem relative_path_parse (r : RelPath) :
  rel_valid r = true ->
  (ups r = 0 -> first_word (first r) <> "deref") ->
  parse (rel_text r) =
  Some (Returns (LeafrefPathArg (PyInt (Z.of_nat (ups r))) (rel_ids r)
                                (PyInt 0) PyNone)).
Proof.
  intros V HD. apply ends_parse. unfold scan.
  rewrite (scan_rel_end r 1 V). simpl fst; simpl snd.
  rewrite <- (app_nil_r (rel_tokens r 1)).
  eapply reaches_ends.
  { apply relative_steps with (X := 0) (Y := 6);
      [simpl; auto | intros _; exact HD | reflexivity]. }
  apply steps_ends with (n := 3). reflexivity.
Qed.

Lemma relative_path_parse_witness :
  rel_valid (mkRel 2 (Qualified "if" "a") [Plain "b"]) = true /\
  parse "../../if:a/b" =
  Some (Returns (LeafrefPathArg (PyInt 2)
                   (PyList [PyTuple [PyStr "if"; PyStr "a"]; PyStr "b"])
                   (PyInt 0) PyNone)).
Proof.
  split; [reflexivity|].
  apply (relative_path_parse (mkRel 2 (Qualified "if" "a") [Plain "b"]));
    [reflexivity | discriminate].
Defined.

(** X2: for all relative paths [r1] and [r2] of node identifiers,
    [deref(r1)/r2] parses to [up] and [dn] of [r2] and [derefup] and
    [derefdn] of [r1]. *)
Theorem deref_path_parse (r1 r2 : RelPath) :
  rel_valid r1 = true ->
  rel_valid r2 = true ->
  parse (deref_text r1 r2) =
  Some (Returns (LeafrefPathArg (PyInt (Z.of_nat (ups r2))) (rel_ids r2)
                                (PyInt (Z.of_nat (ups r1))) (rel_ids r1))).
Proof.
  intros V1 V2. apply ends_parse.
  destruct (scan_deref r1 r2 V1 V2) as (p1 & p2 & p3 & p4 & ->).
  simpl fst; simpl snd.
  eapply reaches_ends; [apply deref_open_steps, rel_tokens_start|].
  eapply reaches_ends.
  { apply relative_steps with (X := 14) (Y := 30);
      [simpl; auto | discriminate | reflexivity]. }
  rewrite <- (app_nil_r (rel_tokens r2 p4)).
  eapply reaches_ends; [apply deref_close_steps, rel_tokens_start|].
  eapply reaches_ends.
  { apply relative_steps with (X := 11) (Y := 27);
      [simpl; auto | discriminate | reflexivity]. }
  apply steps_ends with (n := 3). reflexivity.
Qed.

Lemma deref_path_parse_witness :
  rel_valid (mkRel 1 (Qualified "if" "ref") []) = true /\
  rel_valid (mkRel 0 (Qualified "if" "name") []) = true /\
  parse "deref(../if:ref)/if:name" =
  Some (Returns (LeafrefPathArg
                   (PyInt 0) (PyList [PyTuple [PyStr "if"; PyStr "name"]])
                   (PyInt 1) (PyList [PyTuple [PyStr "if"; PyStr "ref"]]))).
Proof.
  split; [reflexivity|]. split; [reflexivity|].
  apply (deref_path_parse (mkRel 1 (Qualified "if" "ref") [])
                          (mkRel 0 (Qualified "if" "name") []));
    reflexivity.
Defined.

